(** * CompletePhotoTime: the target-time resolution engine

    A shallow embedding of the core of [src/CompletePhotoTime.cpp]: the
    stages that turn the scanned files into resolved target times
    ([fillShotTime], the sort of [main], [applyFilenameOverrideForTarget],
    the default assignment loop of [main], [inferMissingByInterpolation]
    and [makeFilledTargetsStrictlyIncreasing]), followed by the properties
    the specification states about them.

    Conventions of the embedding.
    - [long long] and [std::time_t] values are integers of [Z]; every
      arithmetic operation of the source on them is followed by [wrap64],
      the reduction to the signed 64-bit range.  (Signed overflow is
      undefined in C++; the theorems that depend on arithmetic carry the
      range side conditions under which no operation wraps.)
    - the [int] loop counters and indices ([i], [L], [R], [m], [j], [k])
      are natural numbers: a vector has fewer than 2^31 items.
    - [std::vector<Item>] is a [list Item], read with [!!] and written in
      place with [<[i:=x]>].
    - [std::optional<T>] is [option T].
    - the two readers that touch the outside world, the Exiv2 metadata
      reader and the file-name pattern parser, are section variables, as
      is the build target ([_WIN32] defined or not). *)

From Stdlib Require Import ZArith Lia String Ascii.
From stdpp Require Import base numbers list sorting strings gmap.

Local Open Scope string_scope.

(** ** Machine integers *)

Definition wrap64 (x : Z) : Z := ((x + 2 ^ 63) mod 2 ^ 64 - 2 ^ 63)%Z.

Definition fits64 (x : Z) : Prop := (- 2 ^ 63 <= x < 2 ^ 63)%Z.

Definition add64 (a b : Z) : Z := wrap64 (a + b).
Definition sub64 (a b : Z) : Z := wrap64 (a - b).
Definition mul64 (a b : Z) : Z := wrap64 (a * b).

(** [/] of C++ truncates toward zero. *)
Definition div64 (a b : Z) : Z := wrap64 (Z.quot a b).

(** [std::llabs]. *)
Definition llabs (x : Z) : Z := wrap64 (Z.abs x).

(** ** Data model *)

Record Options := mkOptions {
  enableFilenameFallbackForShot : bool;
  enableFilenameOverrideForTarget : bool;
  filenameOverrideDays : Z;
  anchorGapLimitDays : Z;
  oneSideStep : bool;
  oneSideStepSeconds : Z
}.

(** The default member initialisers of [struct Options]. *)
Definition defaultOptions : Options :=
  {| enableFilenameFallbackForShot := true;
     enableFilenameOverrideForTarget := true;
     filenameOverrideDays := 7;
     anchorGapLimitDays := 90;
     oneSideStep := true;
     oneSideStepSeconds := 1 |}.

Inductive ShotSource := SrcNone | ExifOrXmp | Filename.

Record Item := mkItem {
  path : string;
  mtime : Z;
  ctime : option Z;
  wtime : option Z;
  shot : option Z;
  shotSource : ShotSource;
  target : option Z;
  targetReason : string
}.

(** An [Item] as [collectFiles] pushes it: path and file-system times
    filled in, everything else default-initialised. *)
Definition collected (p : string) (mt : Z) (ct wt : option Z) : Item :=
  {| path := p; mtime := mt; ctime := ct; wtime := wt;
     shot := None; shotSource := SrcNone; target := None; targetReason := "" |}.

(** [it.shot = s; it.shotSource = src;] *)
Definition setShot (it : Item) (s : option Z) (src : ShotSource) : Item :=
  {| path := path it; mtime := mtime it; ctime := ctime it; wtime := wtime it;
     shot := s; shotSource := src;
     target := target it; targetReason := targetReason it |}.

(** [it.target = t; it.targetReason = reason;] *)
Definition setTarget (it : Item) (t : Z) (reason : string) : Item :=
  {| path := path it; mtime := mtime it; ctime := ctime it; wtime := wtime it;
     shot := shot it; shotSource := shotSource it;
     target := Some t; targetReason := reason |}.

Definition hasShot (it : Item) : bool :=
  match shot it with Some _ => true | None => false end.

(** ** Time helpers *)

Definition absDiffSec (a b : Z) : Z := llabs (sub64 a b).

(** ** Stages that consult the outside world *)

Section External.

(** [true] when the program is built with [_WIN32] defined. *)
Variable win32 : bool.
(** [readShotTimeFromMetadata(it.path)]: the Exiv2 reader. *)
Variable readShotTimeFromMetadata : string -> option Z.
(** [parseFilenameTime(it.path)]: the file-name pattern parser. *)
Variable parseFilenameTime : string -> option Z.

Definition fillShotTime (opt : Options) (it : Item) : Item :=
  match readShotTimeFromMetadata (path it) with
  | Some t => setShot it (Some t) ExifOrXmp
  | None =>
      if enableFilenameFallbackForShot opt then
        match parseFilenameTime (path it) with
        | Some nt => setShot it (Some nt) Filename
        | None => setShot it None SrcNone
        end
      else setShot it None SrcNone
  end.

Definition applyFilenameOverrideForTarget (opt : Options) (it : Item) : Item :=
  if negb (enableFilenameOverrideForTarget opt) then it
  else
    match parseFilenameTime (path it) with
    | None => it
    | Some nt =>
        let thresholdSec := mul64 (filenameOverrideDays opt) 86400 in
        if win32 then
          match ctime it, wtime it with
          | Some c, Some w =>
              let dc := absDiffSec c nt in
              let dw := absDiffSec w nt in
              if (thresholdSec <? dc)%Z && (thresholdSec <? dw)%Z
              then setTarget it nt "filename override (fs create/write too far)"
              else it
          | _, _ =>
              let dm := absDiffSec (mtime it) nt in
              if (thresholdSec <? dm)%Z
              then setTarget it nt "filename override (mtime too far)"
              else it
          end
        else
          let dm := absDiffSec (mtime it) nt in
          if (thresholdSec <? dm)%Z
          then setTarget it nt "filename override (mtime too far)"
          else it
    end.

End External.

(** ** Default assignment (the loop of [main] after the override) *)

Definition assignShotAsTarget (it : Item) : Item :=
  match target it, shot it with
  | None, Some s =>
      setTarget it s
        (match shotSource it with
         | Filename => "shot from filename"
         | _ => "shot from metadata"
         end)
  | _, _ => it
  end.

(** ** The sort of [main] *)

(** The comparison lambda handed to [std::sort]. *)
Definition itemLess (a b : Item) : bool :=
  if negb (mtime a =? mtime b)%Z then (mtime a <? mtime b)%Z
  else String.ltb (path a) (path b).

(** [std::sort] leaves no pair out of order: the later element is never
    less than the earlier one. *)
Definition itemOrder (a b : Item) : Prop := itemLess b a = false.

#[global] Instance itemOrder_dec a b : Decision (itemOrder a b).
Proof. unfold itemOrder. apply _. Defined.

(** [std::sort(items.begin(), items.end(), less)], as a merge sort: the
    result of a sort is determined by the comparison whenever no two
    items compare equal, and the paths of a scan are distinct. *)
Definition sortItems (items : list Item) : list Item := merge_sort itemOrder items.

(** ** Gap inference *)

(** [for (c = lo; c < lo + n; ++c) body(c)] over the vector. *)
Definition forRange (lo n : nat) (body : nat -> list Item -> list Item)
    (items : list Item) : list Item :=
  foldl (fun acc c => body c acc) items (seq lo n).

(** The lambda [setIfEmptyTarget] of [inferMissingByInterpolation]. *)
Definition setIfEmptyTarget (idx : nat) (t : Z) (reason : string)
    (items : list Item) : list Item :=
  match items !! idx with
  | Some it =>
      match target it with
      | None => <[idx := setTarget it t reason]> items
      | Some _ => items
      end
  | None => items
  end.

(** [while (i < n && !items[i].shot) i++;] with [fuel] bounding the
    number of tests. *)
Fixpoint skipMissing (items : list Item) (fuel i : nat) : nat :=
  match fuel with
  | O => i
  | S fuel' =>
      match items !! i with
      | Some it => if hasShot it then i else skipMissing items fuel' (S i)
      | None => i
      end
  end.

(** [items[idx].shot] for an index in range. *)
Definition shotAt (items : list Item) (idx : nat) : option Z :=
  match items !! idx with
  | Some it => shot it
  | None => None
  end.

(** [if (L - 1 >= 0) Tprev = items[L - 1].shot;] *)
Definition prevAnchorTime (items : list Item) (L : nat) : option Z :=
  if (1 <=? L)%nat then shotAt items (L - 1) else None.

(** [if (R + 1 < n) Tnext = items[R + 1].shot;] *)
Definition nextAnchorTime (items : list Item) (R : nat) : option Z :=
  if (R + 1 <? length items)%nat then shotAt items (R + 1) else None.

(** The body of the outer loop once [L], [m], [Tprev] and [Tnext] are
    known: the four regimes. *)
Definition fillSegment (opt : Options) (L m : nat) (Tprev Tnext : option Z)
    (items : list Item) : list Item :=
  let gapLimitSec := mul64 (anchorGapLimitDays opt) 86400 in
  match Tprev, Tnext with
  | Some tp, Some tn =>
      let gap := sub64 tn tp in
      if (gapLimitSec <? llabs gap)%Z then
        forRange 0 m (fun j =>
          let t := if (j <? m / 2)%nat then tp else tn in
          setIfEmptyTarget (L + j) t "gap too large -> nearest anchor fill") items
      else
        let absGap := llabs gap in
        if (absGap <? Z.of_nat (m + 1))%Z then
          let dir := if (0 <=? gap)%Z then 1%Z else (-1)%Z in
          forRange 1 m (fun k =>
            let t := add64 tp (mul64 (mul64 dir (Z.of_nat k)) (oneSideStepSeconds opt)) in
            setIfEmptyTarget (L + (k - 1)) t "anchors too close -> step-filled") items
        else
          forRange 1 m (fun k =>
            let add := div64 (mul64 gap (Z.of_nat k)) (Z.of_nat (m + 1)) in
            let t := add64 tp add in
            setIfEmptyTarget (L + (k - 1)) t "interpolated between anchors") items
  | Some tp, None =>
      forRange 0 m (fun j =>
        let t := if oneSideStep opt
                 then add64 tp (mul64 (Z.of_nat (j + 1)) (oneSideStepSeconds opt))
                 else tp in
        setIfEmptyTarget (L + j) t
          (if oneSideStep opt then "only prev anchor -> filled +1s steps"
           else "only prev anchor -> filled")) items
  | None, Some tn =>
      forRange 0 m (fun j =>
        let t := if oneSideStep opt
                 then sub64 tn (mul64 (Z.of_nat (m - j)) (oneSideStepSeconds opt))
                 else tn in
        setIfEmptyTarget (L + j) t
          (if oneSideStep opt then "only next anchor -> filled -1s steps"
           else "only next anchor -> filled")) items
  | None, None =>
      forRange 0 m (fun _ its => its) items
  end.

(** The outer [while (i < n)] loop; [fuel] bounds the number of
    iterations (each one advances [i]). *)
Fixpoint inferLoop (opt : Options) (fuel i : nat) (items : list Item) : list Item :=
  match fuel with
  | O => items
  | S fuel' =>
      let n := length items in
      if (n <=? i)%nat then items
      else
        match items !! i with
        | None => items
        | Some it =>
            if hasShot it then inferLoop opt fuel' (S i) items
            else
              let L := i in
              let i' := skipMissing items (n - i) i in
              let R := (i' - 1)%nat in
              let m := (R - L + 1)%nat in
              let Tprev := prevAnchorTime items L in
              let Tnext := nextAnchorTime items R in
              inferLoop opt fuel' i' (fillSegment opt L m Tprev Tnext items)
        end
  end.

Definition inferMissingByInterpolation (opt : Options) (items : list Item) : list Item :=
  inferLoop opt (S (length items)) 0 items.

(** ** Uniqueness pass *)

(** [if (!reason.empty()) reason += " + "; reason += "unique(+1s steps)";] *)
Definition bumpReason (reason : string) : string :=
  (match reason with
   | EmptyString => reason
   | _ => reason ++ " + "
   end) ++ "unique(+1s steps)".

(** One iteration of the range-for for an item whose target is [t]: the
    item as the iteration leaves it. *)
Definition bumpItem (step : Z) (prevTarget : option Z) (it : Item) (t : Z) : Item :=
  let isFilled := negb (hasShot it) in
  match prevTarget with
  | Some p =>
      if isFilled && (t <=? p)%Z
      then setTarget it (add64 p step) (bumpReason (targetReason it))
      else it
  | None => it
  end.

Fixpoint uniqueLoop (step : Z) (prevTarget : option Z) (items : list Item) : list Item :=
  match items with
  | [] => []
  | it :: rest =>
      match target it with
      | None => it :: uniqueLoop step prevTarget rest
      | Some t =>
          let it' := bumpItem step prevTarget it t in
          it' :: uniqueLoop step (target it') rest
      end
  end.

Definition makeFilledTargetsStrictlyIncreasing (opt : Options) (items : list Item) : list Item :=
  let step := Z.max 1 (oneSideStepSeconds opt) in
  uniqueLoop step None items.

(** ** The pipeline of [main] *)

Section Pipeline.

Variable win32 : bool.
Variable readShotTimeFromMetadata : string -> option Z.
Variable parseFilenameTime : string -> option Z.

(** [main] from "fill shot time for each item" down to the call of
    [makeFilledTargetsStrictlyIncreasing]. *)
Definition resolveTargets (opt : Options) (items : list Item) : list Item :=
  let items1 := fillShotTime readShotTimeFromMetadata parseFilenameTime opt <$> items in
  let items2 := sortItems items1 in
  let items3 :=
    if enableFilenameOverrideForTarget opt
    then applyFilenameOverrideForTarget win32 parseFilenameTime opt <$> items2
    else items2 in
  let items4 := assignShotAsTarget <$> items3 in
  let items5 := inferMissingByInterpolation opt items4 in
  makeFilledTargetsStrictlyIncreasing opt items5.

End Pipeline.

(** * Notions used by the statements *)

(** What [setIfEmptyTarget] does to the item it addresses. *)
Definition assignIfEmpty (t : Z) (reason : string) (it : Item) : Item :=
  match target it with
  | None => setTarget it t reason
  | Some _ => it
  end.

(** The time and reason that the loop of the selected regime hands to
    [setIfEmptyTarget] for the member at offset [j] (0-based) of a
    segment of [m] items; [None] in the regime that assigns nothing.
    [fillSegment_lookup] below proves that this is what the loops of
    [fillSegment] do. *)
Definition memberTarget (opt : Options) (m : nat) (Tprev Tnext : option Z)
    (j : nat) : option (Z * string) :=
  match Tprev, Tnext with
  | Some tp, Some tn =>
      let gap := sub64 tn tp in
      if (mul64 (anchorGapLimitDays opt) 86400 <? llabs gap)%Z then
        Some (if (j <? m / 2)%nat then tp else tn,
              "gap too large -> nearest anchor fill")
      else if (llabs gap <? Z.of_nat (m + 1))%Z then
        Some (add64 tp (mul64 (mul64 (if (0 <=? gap)%Z then 1%Z else (-1)%Z)
                                     (Z.of_nat (1 + j)))
                              (oneSideStepSeconds opt)),
              "anchors too close -> step-filled")
      else
        Some (add64 tp (div64 (mul64 gap (Z.of_nat (1 + j))) (Z.of_nat (m + 1))),
              "interpolated between anchors")
  | Some tp, None =>
      Some (if oneSideStep opt
            then add64 tp (mul64 (Z.of_nat (j + 1)) (oneSideStepSeconds opt))
            else tp,
            if oneSideStep opt then "only prev anchor -> filled +1s steps"
            else "only prev anchor -> filled")
  | None, Some tn =>
      Some (if oneSideStep opt
            then sub64 tn (mul64 (Z.of_nat (m - j)) (oneSideStepSeconds opt))
            else tn,
            if oneSideStep opt then "only next anchor -> filled -1s steps"
            else "only next anchor -> filled")
  | None, None => None
  end.

Definition applyPlan (plan : option (Z * string)) (it : Item) : Item :=
  match plan with
  | Some (t, reason) => assignIfEmpty t reason it
  | None => it
  end.

(** [items[idx]] exists and has a shot time. *)
Definition anchorAt (items : list Item) (idx : nat) : bool :=
  match items !! idx with
  | Some it => hasShot it
  | None => false
  end.

(** [L .. L+m-1] is a segment of [items], the run [L .. R] that one
    iteration of the outer loop of [inferMissingByInterpolation]
    delimits: [m > 0] items without shot time, the item before [L] (if
    there is one) and the item after [R = L+m-1] (if there is one) having
    a shot time. *)
Definition isSegment (items : list Item) (L m : nat) : bool :=
  (0 <? m)%nat && (L + m <=? length items)%nat
  && forallb (fun it => negb (hasShot it)) (take m (drop L items))
  && ((L =? 0)%nat || anchorAt items (L - 1))
  && ((L + m =? length items)%nat || anchorAt items (L + m)).

(** The target of the last item of [items] that has one, [prev] when
    there is none: the value of [prevTarget] after a sweep over [items]
    that started with [prev]. *)
Definition lastTarget (prev : option Z) (items : list Item) : option Z :=
  foldl (fun acc it => match target it with Some t => Some t | None => acc end)
        prev items.

(** The step of the uniqueness pass. *)
Definition uniqueStep (opt : Options) : Z := Z.max 1 (oneSideStepSeconds opt).

(** Items for the examples: an anchor whose target is its shot time, and
    a file without any time. *)
Definition anchorItem (p : string) (t : Z) : Item :=
  assignShotAsTarget (setShot (collected p 0 None None) (Some t) ExifOrXmp).

Definition missingItem (p : string) : Item := collected p 0 None None.

Definition targets (items : list Item) : list (option Z) := target <$> items.

(** The same notion as a proposition over indices. *)
Definition segmentRun (items : list Item) (L m : nat) : Prop :=
  0 < m /\ L + m <= length items /\
  (forall p, L <= p < L + m -> anchorAt items p = false) /\
  (L = 0 \/ anchorAt items (L - 1) = true) /\
  (L + m = length items \/ anchorAt items (L + m) = true).

(** ** Example inputs *)

(** Anchors at 0 and 10 around three files without time. *)
Definition interpolationExample : list Item :=
  [anchorItem "a" 0; missingItem "b"; missingItem "c"; missingItem "d";
   anchorItem "e" 10].

(** Anchors at 0 and 2 around five files without time. *)
Definition closeAnchorsExample : list Item :=
  [anchorItem "a" 0; missingItem "b"; missingItem "c"; missingItem "d";
   missingItem "e"; missingItem "f"; anchorItem "g" 2].

(** Two anchors with the same time around one file without time. *)
Definition zeroGapExample : list Item :=
  [anchorItem "a" 100; missingItem "b"; anchorItem "c" 100].

(** Anchors at 0 and 1_000_000_000 around four files without time. *)
Definition largeGapExample : list Item :=
  [anchorItem "a" 0; missingItem "b"; missingItem "c"; missingItem "d";
   missingItem "e"; anchorItem "f" 1000000000].

(** An anchor at 100 followed by three files without time. *)
Definition onlyPrevExample : list Item :=
  [anchorItem "a" 100; missingItem "b"; missingItem "c"; missingItem "d"].

(** Three files without time followed by an anchor at 500. *)
Definition onlyNextExample : list Item :=
  [missingItem "a"; missingItem "b"; missingItem "c"; anchorItem "d" 500].

(** The default options with stepping in one-sided segments disabled. *)
Definition noStepOptions : Options :=
  {| enableFilenameFallbackForShot := true;
     enableFilenameOverrideForTarget := true;
     filenameOverrideDays := 7;
     anchorGapLimitDays := 90;
     oneSideStep := false;
     oneSideStepSeconds := 1 |}.

(** The default options with the file-name fallback for anchors disabled. *)
Definition noFallbackOptions : Options :=
  {| enableFilenameFallbackForShot := false;
     enableFilenameOverrideForTarget := true;
     filenameOverrideDays := 7;
     anchorGapLimitDays := 90;
     oneSideStep := true;
     oneSideStepSeconds := 1 |}.

(** An anchor resolved to 100 followed by a file whose inferred target
    is 99. *)
Definition bumpExample : list Item :=
  [anchorItem "a" 100;
   setTarget (missingItem "b") 99 "interpolated between anchors"].

(** A scan of two files: [a.jpg] carries metadata with shot time
    5_000_000 and was modified at 1_000_000; [IMG_b.jpg] has no metadata,
    a name that parses to 2_000_000, and was modified at 3_000_000. *)
Definition scanExample : list Item :=
  [collected "a.jpg" 1000000 None None; collected "IMG_b.jpg" 3000000 None None].

Definition scanMetadata (p : string) : option Z :=
  if String.eqb p "a.jpg" then Some 5000000%Z else None.

Definition scanFilenameTime (p : string) : option Z :=
  if String.eqb p "IMG_b.jpg" then Some 2000000%Z else None.



(** A segment one of whose members already has an override target. *)
Definition presetExample : list Item :=
  [anchorItem "a" 0;
   setTarget (missingItem "b") 777 "filename override (mtime too far)";
   missingItem "c"; anchorItem "d" 10].

(** An item of a Windows scan: created at 3_000_000, written at
    3_100_000. *)
Definition copiedFile : Item :=
  collected "IMG_c.jpg" 3100000 (Some 3000000%Z) (Some 3100000%Z).

(** A scan of four files on a build without [_WIN32]: [a.jpg] and
    [d.jpg] carry metadata, [IMG_b.jpg] has none but a name that parses
    to 2_000_000 (see [scanFilenameTime]) and a modification time of
    3_000_000, and [c.jpg] has neither. *)
Definition presetScan : list Item :=
  [collected "a.jpg" 1000000 None None; collected "IMG_b.jpg" 3000000 None None;
   collected "c.jpg" 3000001 None None; collected "d.jpg" 3000002 None None].

(** The metadata of [presetScan]: [a.jpg] was shot at 5_000_000 and
    [d.jpg] at [last]. *)
Definition presetScanMetadata (last : Z) (p : string) : option Z :=
  if String.eqb p "a.jpg" then Some 5000000%Z
  else if String.eqb p "d.jpg" then Some last
  else None.

(** The vector of [presetScan] as it enters the gap inference, with the
    file-name fallback for anchors disabled: [IMG_b.jpg] has no anchor,
    and the override has set its target to 2_000_000. *)
Definition presetScanBeforeInference (last : Z) : list Item :=
  assignShotAsTarget <$>
    (applyFilenameOverrideForTarget false scanFilenameTime noFallbackOptions <$>
       sortItems (fillShotTime (presetScanMetadata last) scanFilenameTime
                    noFallbackOptions <$> presetScan)).

(** ** Notions used by the further properties *)

(** An item with its target and reason reset to the values [collectFiles]
    leaves them with: what is left is what the file scan and
    [fillShotTime] decide. *)
Definition clearTarget (it : Item) : Item :=
  {| path := path it; mtime := mtime it; ctime := ctime it; wtime := wtime it;
     shot := shot it; shotSource := shotSource it;
     target := None; targetReason := "" |}.

(** The file an item stands for: path and file-system times. *)
Definition fileOf (it : Item) : Item :=
  collected (path it) (mtime it) (ctime it) (wtime it).

(** ** The counters and the write decision of [main] *)

(** The counter [anchors] of the loop that calls [fillShotTime]:
    [if (it.shot) anchors++;]. *)
Definition countAnchors (items : list Item) : nat :=
  foldl (fun anchors it => if hasShot it then S anchors else anchors) 0 items.

(** The counters of the loop that applies the changes. *)
Record Report := mkReport {
  processed : nat;
  filledCount : nat;
  skippedNoTarget : nat
}.

(** One iteration of that loop, as far as the counters go:
    [processed++; if (!it.target) { skippedNoTarget++; continue; }
     if (!it.shot && it.target) filledCount++;]. *)
Definition reportStep (r : Report) (it : Item) : Report :=
  match target it with
  | None =>
      {| processed := S (processed r);
         filledCount := filledCount r;
         skippedNoTarget := S (skippedNoTarget r) |}
  | Some _ =>
      {| processed := S (processed r);
         filledCount := if hasShot it then filledCount r else S (filledCount r);
         skippedNoTarget := skippedNoTarget r |}
  end.

Definition report (items : list Item) : Report :=
  foldl reportStep {| processed := 0; filledCount := 0; skippedNoTarget := 0 |} items.

(** [bool metadataHadShot = (it.shotSource == ShotSource::ExifOrXmp);
     bool shouldWriteExif = opt.writeExifIfMissing && !metadataHadShot;]
    with the option [writeExifIfMissing] as an argument. *)
Definition shouldWriteExif (writeExifIfMissing : bool) (it : Item) : bool :=
  let metadataHadShot :=
    match shotSource it with ExifOrXmp => true | _ => false end in
  writeExifIfMissing && negb metadataHadShot.

(** The item of [a.jpg] as the pipeline leaves it for [scanExample]. *)
Definition scanAnchorResolved : Item :=
  {| path := "a.jpg"; mtime := 1000000; ctime := None; wtime := None;
     shot := Some 5000000%Z; shotSource := ExifOrXmp;
     target := Some 5000000%Z; targetReason := "shot from metadata" |}.

(** A scan of two files about which nothing is known. *)
Definition blankScan : list Item :=
  [collected "x.jpg" 5 None None; collected "y.jpg" 3 None None].

(** ** Windows file times *)

(** [FILETIME]: two 32-bit halves of a count of 100 ns ticks since
    1601-01-01. *)
Record FILETIME := mkFILETIME {
  dwLowDateTime : Z;
  dwHighDateTime : Z
}.

(** [ULARGE_INTEGER::QuadPart] of the union whose [LowPart] and
    [HighPart] are the two halves. *)
Definition quadPart (ft : FILETIME) : Z :=
  (dwHighDateTime ft * 2 ^ 32 + dwLowDateTime ft)%Z.

Definition WINDOWS_TICK : Z := 10000000.
Definition SEC_TO_UNIX_EPOCH : Z := 11644473600.

Definition filetimeToTimeT (ft : FILETIME) : option Z :=
  let secondsSince1601 := wrap64 (quadPart ft / WINDOWS_TICK) in
  let unixSeconds := sub64 secondsSince1601 SEC_TO_UNIX_EPOCH in
  if (unixSeconds <? 0)%Z then None else Some unixSeconds.

(** The [FILETIME] that [setFileTimesWindows] hands to [SetFileTime]
    for the time [t]: [ft64 = (t + SEC_TO_UNIX_EPOCH) * WINDOWS_TICK],
    split with [& 0xFFFFFFFF] and [>> 32]. *)
Definition setFileTimesWindows_ft (t : Z) : FILETIME :=
  let ft64 := mul64 (add64 t SEC_TO_UNIX_EPOCH) WINDOWS_TICK in
  {| dwLowDateTime := Z.land ft64 4294967295;
     dwHighDateTime := Z.land (Z.shiftr ft64 32) 4294967295 |}.

Record WinTimes := mkWinTimes { create : Z; write : Z }.

(** [getFileTimesWindows] once [GetFileTime] has delivered the creation
    and the write time ([None]: the file could not be opened or the call
    failed). *)
Definition getFileTimesWindows (times : option (FILETIME * FILETIME)) : option WinTimes :=
  match times with
  | None => None
  | Some (c, w) =>
      match filetimeToTimeT c, filetimeToTimeT w with
      | Some tc, Some tw => Some {| create := tc; write := tw |}
      | _, _ => None
      end
  end.

(** The [Item] that [collectFiles] pushes on a [_WIN32] build:
    [if (auto wt = getFileTimesWindows(p)) { it.ctime = wt->create;
     it.wtime = wt->write; }]. *)
Definition collectItemWindows (p : string) (mt : Z)
    (times : option (FILETIME * FILETIME)) : Item :=
  match getFileTimesWindows times with
  | Some wt => collected p mt (Some (create wt)) (Some (write wt))
  | None => collected p mt None None
  end.

(** An item of a Windows scan whose creation time lies before 1970. *)
Definition oldCreationTimes : option (FILETIME * FILETIME) :=
  Some ({| dwLowDateTime := 0; dwHighDateTime := 0 |},
        {| dwLowDateTime := 3577643008; dwHighDateTime := 27111902 |}).

(** ** Text helpers and the prompts

    The text that these functions handle is a list of characters. *)

(** [std::isspace] in the "C" locale: space, and tab to carriage return. *)
Definition isspace (c : ascii) : bool :=
  let n := nat_of_ascii c in
  (n =? 32)%nat || ((9 <=? n)%nat && (n <=? 13)%nat).

(** [std::tolower] in the "C" locale. *)
Definition tolower (c : ascii) : ascii :=
  let n := nat_of_ascii c in
  if (65 <=? n)%nat && (n <=? 90)%nat then ascii_of_nat (n + 32) else c.

(** [while (!s.empty() && isspace(s.front())) s.erase(s.begin());] *)
Fixpoint eraseFrontSpaces (s : list ascii) : list ascii :=
  match s with
  | c :: rest => if isspace c then eraseFrontSpaces rest else s
  | [] => []
  end.

(** [while (!s.empty() && isspace(s.back())) s.pop_back();] with [fuel]
    bounding the number of tests. *)
Fixpoint popBackSpaces (fuel : nat) (s : list ascii) : list ascii :=
  match fuel with
  | O => s
  | S fuel' =>
      match last s with
      | Some c => if isspace c then popBackSpaces fuel' (removelast s) else s
      | None => s
      end
  end.

Definition trim (s : list ascii) : list ascii :=
  let s1 := eraseFrontSpaces s in
  popBackSpaces (length s1) s1.

(** [askYesNo] as a function of the line that [std::getline] delivers. *)
Definition askYesNo (line : list ascii) (def : bool) : bool :=
  match trim line with
  | [] => def
  | c0 :: _ =>
      let c := tolower c0 in
      Ascii.eqb c "y"%char || Ascii.eqb c "1"%char || Ascii.eqb c "t"%char
  end.

(** The double and the single quote. *)
Definition dquote : ascii := ascii_of_nat 34.
Definition squote : ascii := ascii_of_nat 39.

(** [askPath] as a function of the line read, up to the construction of
    the [fs::path]: trim, then strip one pair of surrounding quotes. *)
Definition askPath (line : list ascii) : list ascii :=
  let s := trim line in
  match head s, last s with
  | Some f, Some b =>
      if (2 <=? length s)%nat &&
         ((Ascii.eqb f dquote && Ascii.eqb b dquote) ||
          (Ascii.eqb f squote && Ascii.eqb b squote))
      then take (length s - 2) (drop 1 s)
      else s
  | _, _ => s
  end.

(** ** Reading and writing the shot time in the metadata

    Exiv2's [ExifData] and [XmpData] are seen as finite maps from the
    key of a datum to its value as a string.  The functions are modelled
    on the path on which Exiv2 opens the file and raises no exception. *)

Definition keyDateTimeOriginal : string := "Exif.Photo.DateTimeOriginal".
Definition keyDateTimeDigitized : string := "Exif.Photo.DateTimeDigitized".
Definition keyImageDateTime : string := "Exif.Image.DateTime".

(** [if (exif.findKey(k) == exif.end()) { exif[k] = s; changed = true; }]
    on the pair of the data and the flag [changed]. *)
Definition setIfMissing (k s : string) (st : gmap string string * bool)
    : gmap string string * bool :=
  match st.1 !! k with
  | None => (<[k := s]> st.1, true)
  | Some _ => st
  end.

(** [writeExifShotIfMissing]: the EXIF data that the file holds
    afterwards (written back only [if (changed)]) and the value
    returned; [s] is [toExifString(t)]. *)
Definition writeExifShotIfMissing (exif : gmap string string) (s : string)
    : gmap string string * bool :=
  setIfMissing keyImageDateTime s
    (setIfMissing keyDateTimeDigitized s
       (setIfMissing keyDateTimeOriginal s (exif, false))).

(** The lambdas [tryExifKeys] and [tryXmpKeys]: the first key of [keys]
    whose datum exists and gives a time.  [timeOf] stands for the chain
    [parseDateTimeToTm], [tmToTimeTLocal], [plausible] applied to the
    value of a datum. *)
Fixpoint tryKeys (timeOf : string -> option Z) (data : gmap string string)
    (keys : list string) : option Z :=
  match keys with
  | [] => None
  | k :: rest =>
      match data !! k with
      | None => tryKeys timeOf data rest
      | Some v =>
          match timeOf v with
          | Some t => Some t
          | None => tryKeys timeOf data rest
          end
      end
  end.

(** [if (auto t = a) return t;] followed by [b]. *)
Definition orTry (a b : option Z) : option Z :=
  match a with Some t => Some t | None => b end.

Definition readShotTimeFromMetadata (timeOf : string -> option Z)
    (exif xmp : gmap string string) : option Z :=
  orTry (if decide (exif = ∅) then None
         else orTry (tryKeys timeOf exif [keyDateTimeOriginal])
                (orTry (tryKeys timeOf exif [keyDateTimeDigitized])
                   (tryKeys timeOf exif [keyImageDateTime])))
        (if decide (xmp = ∅) then None
         else orTry (tryKeys timeOf xmp ["Xmp.exif.DateTimeOriginal"])
                (orTry (tryKeys timeOf xmp ["Xmp.xmp.CreateDate"])
                   (tryKeys timeOf xmp ["Xmp.photoshop.DateCreated"]))).

(** A file whose only date datum is unusable, and a reader of date
    strings that knows one string. *)
Definition staleExif : gmap string string :=
  {[ keyImageDateTime := "0000:00:00 00:00:00" ]}.

Definition knownDate (v : string) : option Z :=
  if String.eqb v "2021:12:30 21:54:25" then Some 1640901265%Z else None.

(** ** The time in a file name *)

(** [std::tm], the fields that the program sets. *)
Record Tm := mkTm {
  tm_sec : Z; tm_min : Z; tm_hour : Z;
  tm_mday : Z; tm_mon : Z; tm_year : Z;
  tm_isdst : Z
}.

(** The digits [0] to [9]: what [\d] matches. *)
Definition isdigit (c : ascii) : bool :=
  let n := nat_of_ascii c in (48 <=? n)%nat && (n <=? 57)%nat.

(** [std::stoi] of a string of digits. *)
Definition stoi (ds : list ascii) : Z :=
  foldl (fun a c => (10 * a + (Z.of_nat (nat_of_ascii c) - 48))%Z) 0%Z ds.

(** [(\d{n})]: exactly [n] digits; the group and the rest of the text. *)
Fixpoint takeDigits (n : nat) (s : list ascii) : option (list ascii * list ascii) :=
  match n with
  | O => Some ([], s)
  | S n' =>
      match s with
      | c :: rest =>
          if isdigit c
          then '(ds, rest') ← takeDigits n' rest; Some (c :: ds, rest')
          else None
      | [] => None
      end
  end.

(** [[...]?] for a class of characters none of which is a digit, in
    front of [\d]: the character is consumed when it is there (leaving
    it would make the following [\d] fail on it). *)
Definition skipOptional (cls : ascii -> bool) (s : list ascii) : list ascii :=
  match s with
  | c :: rest => if cls c then rest else s
  | [] => []
  end.

(** A literal character. *)
Definition expectChar (x : ascii) (s : list ascii) : option (list ascii) :=
  match s with
  | c :: rest => if Ascii.eqb c x then Some rest else None
  | [] => None
  end.

(** The six groups of a match. *)
Record Groups := mkGroups {
  gY : list ascii; gM : list ascii; gD : list ascii;
  gh : list ascii; gmi : list ascii; gs : list ascii
}.

Definition isUnderscoreOrDash (c : ascii) : bool :=
  Ascii.eqb c "_"%char || Ascii.eqb c "-"%char.

(** [[_\s-]]. *)
Definition isUnderscoreSpaceOrDash (c : ascii) : bool :=
  Ascii.eqb c "_"%char || isspace c || Ascii.eqb c "-"%char.

(** A match of [(\d{4})(\d{2})(\d{2})[_-]?(\d{2})(\d{2})(\d{2})] at the
    start of [s]. *)
Definition matchCompact (s : list ascii) : option Groups :=
  '(y, s) ← takeDigits 4 s;
  '(mo, s) ← takeDigits 2 s;
  '(d, s) ← takeDigits 2 s;
  '(h, s) ← takeDigits 2 (skipOptional isUnderscoreOrDash s);
  '(mi, s) ← takeDigits 2 s;
  '(se, _) ← takeDigits 2 s;
  Some {| gY := y; gM := mo; gD := d; gh := h; gmi := mi; gs := se |}.

(** A match of
    [(\d{4})-(\d{2})-(\d{2})[_\s-]?(\d{2})[-_]?(\d{2})[-_]?(\d{2})] at
    the start of [s]. *)
Definition matchDashed (s : list ascii) : option Groups :=
  '(y, s) ← takeDigits 4 s;
  s ← expectChar "-"%char s;
  '(mo, s) ← takeDigits 2 s;
  s ← expectChar "-"%char s;
  '(d, s) ← takeDigits 2 s;
  '(h, s) ← takeDigits 2 (skipOptional isUnderscoreSpaceOrDash s);
  '(mi, s) ← takeDigits 2 (skipOptional isUnderscoreOrDash s);
  '(se, _) ← takeDigits 2 (skipOptional isUnderscoreOrDash s);
  Some {| gY := y; gM := mo; gD := d; gh := h; gmi := mi; gs := se |}.

(** [std::regex_search]: the match at the leftmost position that has
    one. *)
Fixpoint regexSearch (matchAt : list ascii -> option Groups) (s : list ascii)
    : option Groups :=
  match matchAt s with
  | Some g => Some g
  | None =>
      match s with
      | [] => None
      | _ :: rest => regexSearch matchAt rest
      end
  end.

(** The [std::tm] that [parseFilenameTime] builds from the groups. *)
Definition tmOfGroups (g : Groups) : Tm :=
  {| tm_year := stoi (gY g) - 1900;
     tm_mon := stoi (gM g) - 1;
     tm_mday := stoi (gD g);
     tm_hour := stoi (gh g);
     tm_min := stoi (gmi g);
     tm_sec := stoi (gs g);
     tm_isdst := -1 |}.

Section FilenameTime.

(** [std::mktime] for the local time zone, and [std::time(nullptr)]. *)
Variable mktime : Tm -> Z.
Variable now : Z.

Definition plausible (t : Z) : bool :=
  let tm1980 := {| tm_sec := 0; tm_min := 0; tm_hour := 0;
                   tm_mday := 1; tm_mon := 0; tm_year := 80; tm_isdst := 0 |} in
  let t1980 := mktime tm1980 in
  negb (t =? -1)%Z && (t1980 <=? t)%Z && (t <=? add64 now (24 * 3600))%Z.

Definition tmToTimeTLocal (tm : Tm) : option Z :=
  let t := mktime tm in
  if (t =? -1)%Z then None else Some t.

(** One round of the loop over the patterns: [Some t] when the loop
    returns [t] in this round. *)
Definition tryPattern (matchAt : list ascii -> option Groups) (name : list ascii)
    : option Z :=
  match regexSearch matchAt name with
  | Some g =>
      match tmToTimeTLocal (tmOfGroups g) with
      | Some t => if plausible t then Some t else None
      | None => None
      end
  | None => None
  end.

(** [parseFilenameTime] as a function of [file.stem().string()]. *)
Definition parseFilenameTime (name : list ascii) : option Z :=
  orTry (tryPattern matchCompact name) (tryPattern matchDashed name).

End FilenameTime.

(** A clock for the examples: [mktime] that counts seconds with months
    of 31 days, and a present far enough ahead. *)
Definition toyMktime (tm : Tm) : Z :=
  ((((((tm_year tm - 70) * 12 + tm_mon tm) * 31 + (tm_mday tm - 1)) * 24
      + tm_hour tm) * 60 + tm_min tm) * 60 + tm_sec tm)%Z.

Definition toyNow : Z := 3000000000.

(** The default options with a negative override threshold. *)
Definition negativeDaysOptions : Options :=
  {| enableFilenameFallbackForShot := true;
     enableFilenameOverrideForTarget := true;
     filenameOverrideDays := -1;
     anchorGapLimitDays := 90;
     oneSideStep := true;
     oneSideStepSeconds := 1 |}.

(** * Properties *)

(** ** Machine arithmetic inside the 64-bit range *)

Lemma wrap64_fits x : fits64 x -> wrap64 x = x.
Proof.
  unfold fits64, wrap64. intros Hx.
  rewrite Z.mod_small; lia.
Qed.

Lemma llabs_fits x : fits64 (Z.abs x) -> llabs x = Z.abs x.
Proof. apply wrap64_fits. Qed.

Lemma fits64_abs x : fits64 (Z.abs x) -> fits64 x.
Proof. unfold fits64. lia. Qed.

Lemma absDiffSec_fits a b : fits64 (Z.abs (a - b)) -> absDiffSec a b = Z.abs (a - b).
Proof.
  intros H. unfold absDiffSec, sub64.
  rewrite (wrap64_fits (a - b)) by (by apply fits64_abs).
  by apply llabs_fits.
Qed.

(** ** The guarded assignment, item by item *)

Lemma assignIfEmpty_shot t r it : shot (assignIfEmpty t r it) = shot it.
Proof. unfold assignIfEmpty. by destruct (target it). Qed.

Lemma assignIfEmpty_set t r it : target it ≠ None -> assignIfEmpty t r it = it.
Proof. unfold assignIfEmpty. by destruct (target it). Qed.


Lemma setIfEmptyTarget_length idx t r items :
  length (setIfEmptyTarget idx t r items) = length items.
Proof.
  unfold setIfEmptyTarget.
  destruct (items !! idx) as [it|]; [|done].
  destruct (target it); [done|]. apply length_insert.
Qed.

Lemma setIfEmptyTarget_lookup idx t r items p :
  setIfEmptyTarget idx t r items !! p =
  if decide (p = idx) then assignIfEmpty t r <$> items !! p else items !! p.
Proof.
  unfold setIfEmptyTarget.
  destruct (decide (p = idx)) as [->|Hne].
  - destruct (items !! idx) as [it|] eqn:Hit; [|by rewrite Hit].
    unfold assignIfEmpty. destruct (target it) eqn:Ht.
    + by rewrite Hit; simpl; rewrite Ht.
    + rewrite list_lookup_insert_eq; [by simpl; rewrite Ht|].
      by eapply lookup_lt_Some.
  - destruct (items !! idx) as [it|]; [|done].
    destruct (target it); [done|].
    by rewrite list_lookup_insert_ne.
Qed.

(** ** Counted loops of guarded assignments *)

Lemma forRange_snoc lo n body items :
  forRange lo (S n) body items = body (lo + n) (forRange lo n body items).
Proof. unfold forRange. by rewrite seq_S, foldl_app. Qed.

Lemma forRange_length lo n body items :
  (forall c its, length (body c its) = length its) ->
  length (forRange lo n body items) = length items.
Proof.
  intros Hb. induction n as [|n IH]; [done|].
  by rewrite forRange_snoc, Hb.
Qed.

(** A loop whose [c]-th iteration is the guarded assignment of [tm c] to
    index [L + (c - lo)] assigns, to every index [p] of [L .. L+n-1], the
    time of the iteration that addresses it, and touches nothing else. *)
Lemma forRange_assign_lookup lo n L tm rs body items p :
  (forall c its, body c its = setIfEmptyTarget (L + (c - lo)) (tm c) (rs c) its) ->
  forRange lo n body items !! p =
  if decide (L <= p < L + n)
  then assignIfEmpty (tm (lo + (p - L))) (rs (lo + (p - L))) <$> items !! p
  else items !! p.
Proof.
  intros Hb. induction n as [|n IH].
  - unfold forRange; simpl. case_decide; [lia|done].
  - rewrite forRange_snoc, Hb, setIfEmptyTarget_lookup, IH.
    replace (lo + n - lo) with n by lia.
    repeat case_decide; try lia; try done.
    subst p. by replace (lo + (L + n - L)) with (lo + n) by lia.
Qed.

(** ** The regimes, item by item *)

Lemma applyPlan_shot plan it : shot (applyPlan plan it) = shot it.
Proof. destruct plan as [[t r]|]; [apply assignIfEmpty_shot|done]. Qed.

Lemma applyPlan_set plan it : target it ≠ None -> applyPlan plan it = it.
Proof. destruct plan as [[t r]|]; [apply assignIfEmpty_set|done]. Qed.


Lemma forRange_skip lo n items : forRange lo n (fun _ its => its) items = items.
Proof. induction n as [|n IH]; [done|]. by rewrite forRange_snoc. Qed.

(** [fillSegment] changes the members of the segment as [memberTarget]
    says and nothing else. *)
Lemma fillSegment_lookup opt L m Tprev Tnext items p :
  fillSegment opt L m Tprev Tnext items !! p =
  if decide (L <= p < L + m)
  then applyPlan (memberTarget opt m Tprev Tnext (p - L)) <$> items !! p
  else items !! p.
Proof.
  unfold fillSegment, memberTarget.
  destruct Tprev as [tp|], Tnext as [tn|]; simpl.
  - destruct (_ <? llabs _)%Z.
    + erewrite (forRange_assign_lookup 0 m L
        (fun j => if (j <? m / 2)%nat then tp else tn) (fun _ => _));
        [done|]. intros c its. by rewrite Nat.sub_0_r.
    + destruct (llabs _ <? _)%Z.
      * by erewrite (forRange_assign_lookup 1 m L
          (fun k => add64 tp (mul64 (mul64 _ (Z.of_nat k)) _)) (fun _ => _)).
      * by erewrite (forRange_assign_lookup 1 m L
          (fun k => add64 tp (div64 (mul64 _ (Z.of_nat k)) _)) (fun _ => _)).
  - erewrite (forRange_assign_lookup 0 m L
      (fun j => if oneSideStep opt then add64 tp (mul64 (Z.of_nat (j + 1)) _) else tp)
      (fun _ => _)); [done|]. intros c its. by rewrite Nat.sub_0_r.
  - erewrite (forRange_assign_lookup 0 m L
      (fun j => if oneSideStep opt then sub64 tn (mul64 (Z.of_nat (m - j)) _) else tn)
      (fun _ => _)); [done|]. intros c its. by rewrite Nat.sub_0_r.
  - rewrite forRange_skip. case_decide; [|done].
    by destruct (items !! p).
Qed.

Lemma fillSegment_length opt L m Tprev Tnext items :
  length (fillSegment opt L m Tprev Tnext items) = length items.
Proof.
  unfold fillSegment.
  destruct Tprev, Tnext; repeat case_match;
    apply forRange_length; intros; try done; apply setIfEmptyTarget_length.
Qed.

Lemma fillSegment_shots opt L m Tprev Tnext items :
  shot <$> fillSegment opt L m Tprev Tnext items = shot <$> items.
Proof.
  apply list_eq. intros p. rewrite !list_lookup_fmap, fillSegment_lookup.
  case_decide; [|done].
  destruct (items !! p) as [it|]; [|done]. simpl. by rewrite applyPlan_shot.
Qed.


(** ** Segments *)

Lemma anchorAt_shots its items p :
  shot <$> its = shot <$> items -> anchorAt its p = anchorAt items p.
Proof.
  intros Hs. unfold anchorAt, hasShot.
  assert (H : (shot <$> its) !! p = (shot <$> items) !! p) by (by rewrite Hs).
  rewrite !list_lookup_fmap in H.
  destruct (its !! p), (items !! p); simplify_eq/=; try done.
  by rewrite H.
Qed.

Lemma shotAt_shots its items p :
  shot <$> its = shot <$> items -> shotAt its p = shotAt items p.
Proof.
  intros Hs. unfold shotAt.
  assert (H : (shot <$> its) !! p = (shot <$> items) !! p) by (by rewrite Hs).
  rewrite !list_lookup_fmap in H.
  by destruct (its !! p), (items !! p); simplify_eq/=.
Qed.

Lemma length_shots its items :
  shot <$> its = shot <$> items -> length its = length items.
Proof. intros Hs. by rewrite <-(length_fmap shot its), Hs, length_fmap. Qed.

Lemma prevAnchorTime_shots its items L :
  shot <$> its = shot <$> items -> prevAnchorTime its L = prevAnchorTime items L.
Proof. intros Hs. unfold prevAnchorTime. by rewrite (shotAt_shots _ _ _ Hs). Qed.

Lemma nextAnchorTime_shots its items R :
  shot <$> its = shot <$> items -> nextAnchorTime its R = nextAnchorTime items R.
Proof.
  intros Hs. unfold nextAnchorTime.
  by rewrite (shotAt_shots _ _ _ Hs), (length_shots _ _ Hs).
Qed.

Lemma segmentRun_shots its items L m :
  shot <$> its = shot <$> items -> segmentRun its L m -> segmentRun items L m.
Proof.
  intros Hs (Hm & Hlen & Hrun & Hl & Hr).
  unfold segmentRun. rewrite <-(length_shots _ _ Hs).
  repeat split; try done.
  - intros p Hp. rewrite <-(anchorAt_shots _ _ _ Hs). by apply Hrun.
  - destruct Hl as [?|Hl]; [by left|right]. by rewrite <-(anchorAt_shots _ _ _ Hs).
  - destruct Hr as [?|Hr]; [by left|right]. by rewrite <-(anchorAt_shots _ _ _ Hs).
Qed.

Lemma isSegment_run items L m : isSegment items L m = true -> segmentRun items L m.
Proof.
  unfold isSegment. rewrite !andb_true_iff, !orb_true_iff.
  intros [[[[Hm Hlen] Hall] Hl] Hr].
  apply Nat.ltb_lt in Hm. apply Nat.leb_le in Hlen.
  repeat split; try done.
  - intros p Hp. unfold anchorAt.
    destruct (items !! p) as [it|] eqn:Hit; [|done].
    rewrite forallb_forall in Hall.
    apply negb_true_iff, Hall, list_elem_of_In, list_elem_of_lookup.
    exists (p - L). rewrite lookup_take_lt by lia. rewrite lookup_drop.
    by replace (L + (p - L)) with p by lia.
  - destruct Hl as [Hl|Hl]; [left; by apply Nat.eqb_eq|by right].
  - destruct Hr as [Hr|Hr]; [left; by apply Nat.eqb_eq|by right].
Qed.


(** Two segments starting at the same index have the same length. *)
Lemma segmentRun_unique items L m m' :
  segmentRun items L m -> segmentRun items L m' -> m = m'.
Proof.
  intros (Hm & Hlen & Hrun & _ & Hr) (Hm' & Hlen' & Hrun' & _ & Hr').
  destruct (decide (m = m')) as [|Hne]; [done|exfalso].
  destruct (decide (m < m')).
  - destruct Hr as [Hr|Hr]; [lia|].
    rewrite Hrun' in Hr by lia. done.
  - destruct Hr' as [Hr'|Hr']; [lia|].
    rewrite Hrun in Hr' by lia. done.
Qed.

(** A segment that starts before another one ends before it. *)
Lemma segmentRun_before items L m L' m' :
  segmentRun items L m -> segmentRun items L' m' -> L' < L -> L' + m' <= L.
Proof.
  intros (Hm & Hlen & Hrun & Hl & _) (Hm' & Hlen' & Hrun' & _ & _) Hlt.
  destruct (decide (L' + m' <= L)) as [|Hgt]; [done|exfalso].
  destruct Hl as [Hl|Hl]; [lia|].
  rewrite Hrun' in Hl by lia. done.
Qed.

(** The inner [while] stops at the first item with a shot time, or at
    the end of the vector. *)
Lemma skipMissing_spec items fuel i :
  let i' := skipMissing items fuel i in
  i <= i' <= i + fuel /\
  (forall p, i <= p < i' -> anchorAt items p = false) /\
  (i' = i + fuel \/ length items <= i' \/ anchorAt items i' = true).
Proof.
  revert i. induction fuel as [|fuel IH]; intros i; simpl.
  - repeat split; lia.
  - destruct (items !! i) as [it|] eqn:Hit.
    + destruct (hasShot it) eqn:Hs.
      * repeat split; try lia. right; right. unfold anchorAt. by rewrite Hit.
      * destruct (IH (S i)) as ((H1 & H2) & H3 & H4).
        repeat split; try lia.
        -- intros p Hp. destruct (decide (p = i)) as [->|].
           ++ unfold anchorAt. by rewrite Hit.
           ++ apply H3. lia.
        -- destruct H4 as [H4|H4]; [left; lia|by right].
    + repeat split; try lia. right; left. by apply lookup_ge_None.
Qed.

(** ** An invariant rule for the outer loop of [inferMissingByInterpolation]

    The loop visits the vector from left to right; it either steps over
    an item that has a shot time or fills one whole segment.  A property
    of the pair (index reached, vector) that holds at the start and is
    kept by both kinds of iteration holds when the loop ends, with the
    index at the end of the vector. *)

Section InferInvariant.

Variable opt : Options.
Variable items : list Item.
Variable P : nat -> list Item -> Prop.

Hypothesis P_init : P 0 items.
Hypothesis P_anchor : forall i its,
  P i its -> shot <$> its = shot <$> items -> anchorAt items i = true ->
  P (S i) its.
Hypothesis P_segment : forall L m its,
  P L its -> shot <$> its = shot <$> items -> segmentRun items L m ->
  P (L + m) (fillSegment opt L m (prevAnchorTime items L)
               (nextAnchorTime items (L + m - 1)) its).

Lemma inferLoop_invariant fuel i its :
  length items - i < fuel -> i <= length items ->
  shot <$> its = shot <$> items ->
  (i = 0 \/ anchorAt items (i - 1) = true \/
   length items <= i \/ anchorAt items i = true) ->
  P i its ->
  P (length items) (inferLoop opt fuel i its).
Proof.
  revert i its. induction fuel as [|fuel IH]; intros i its Hfuel Hi Hs Hb HP; [lia|].
  pose proof (length_shots _ _ Hs) as Hlen.
  simpl. rewrite Hlen.
  destruct (length items <=? i)%nat eqn:Hend.
  { apply Nat.leb_le in Hend. by replace (length items) with i by lia. }
  apply Nat.leb_gt in Hend.
  destruct (its !! i) as [it|] eqn:Hit; cycle 1.
  { apply lookup_ge_None in Hit. lia. }
  assert (Hai : anchorAt items i = hasShot it).
  { rewrite <-(anchorAt_shots _ _ _ Hs). unfold anchorAt. by rewrite Hit. }
  destruct (hasShot it) eqn:Hshot.
  - apply IH; try done; try lia.
    + right; left. by replace (S i - 1) with i by lia.
    + by apply P_anchor.
  - pose proof (skipMissing_spec its (length items - i) i) as Hskip.
    set (i' := skipMissing its (length items - i) i) in *.
    simpl in Hskip. destruct Hskip as ((Hlo & Hhi) & Hrun & Hstop).
    assert (Hstop' : length items <= i' \/ anchorAt items i' = true).
    { destruct Hstop as [?|[?|?]]; [left; lia|left; lia|right].
      by rewrite <-(anchorAt_shots _ _ _ Hs). }
    assert (Hlt : i < i').
    { destruct (decide (i = i')) as [Heq|]; [|lia].
      rewrite <-Heq in Hstop'. destruct Hstop' as [?|Hst]; [lia|].
      rewrite Hai in Hst. done. }
    assert (Hseg : segmentRun items i (i' - i)).
    { unfold segmentRun. repeat split; try lia.
      - intros p Hp. rewrite <-(anchorAt_shots _ _ _ Hs). apply Hrun. lia.
      - destruct Hb as [?|[?|[?|Hb]]]; [by left|by right|lia|].
        rewrite Hai in Hb. done.
      - replace (i + (i' - i)) with i' by lia.
        destruct Hstop' as [?|?]; [left; lia|by right]. }
    replace (i' - 1 - i + 1) with (i' - i) by lia.
    rewrite (prevAnchorTime_shots _ _ _ Hs), (nextAnchorTime_shots _ _ _ Hs).
    apply IH.
    + lia.
    + lia.
    + by rewrite fillSegment_shots.
    + destruct Hstop' as [?|?]; [right; right; left; lia|by do 3 right].
    + pose proof (P_segment i (i' - i) its HP Hs Hseg) as HP'.
      replace (i + (i' - i)) with i' in HP' by lia.
      by replace (i + (i' - i) - 1) with (i' - 1) in HP' by lia.
Qed.

Lemma inferMissing_invariant :
  P (length items) (inferMissingByInterpolation opt items).
Proof.
  unfold inferMissingByInterpolation.
  apply inferLoop_invariant; [lia|lia|done|by left|done].
Qed.

End InferInvariant.

Lemma inferMissing_shots opt items :
  shot <$> inferMissingByInterpolation opt items = shot <$> items.
Proof.
  apply (inferMissing_invariant opt items (fun _ its => shot <$> its = shot <$> items));
    try done.
  intros L m its Hs _ _. by rewrite fillSegment_shots.
Qed.

Lemma inferMissing_length opt items :
  length (inferMissingByInterpolation opt items) = length items.
Proof. apply length_shots, inferMissing_shots. Qed.

(** Every item of the result is the original item, or the original item
    after a guarded assignment. *)
Lemma inferMissing_keeps_set opt items p it :
  items !! p = Some it -> target it ≠ None ->
  inferMissingByInterpolation opt items !! p = Some it.
Proof.
  intros Hit Ht.
  apply (inferMissing_invariant opt items (fun _ its => its !! p = Some it)); try done.
  intros L m its Hp _ _. rewrite fillSegment_lookup, Hp.
  case_decide; [|done]. simpl. by rewrite applyPlan_set.
Qed.

(** The members of a segment end as [fillSegment] leaves them, with the
    anchor times read before and after the segment. *)
Lemma inferMissing_segment opt items L m p :
  segmentRun items L m -> L <= p < L + m ->
  inferMissingByInterpolation opt items !! p =
  applyPlan (memberTarget opt m (prevAnchorTime items L)
               (nextAnchorTime items (L + m - 1)) (p - L)) <$> items !! p.
Proof.
  intros Hseg Hp.
  set (f := applyPlan (memberTarget opt m (prevAnchorTime items L)
               (nextAnchorTime items (L + m - 1)) (p - L))).
  cut ((forall q, length items <= q ->
          inferMissingByInterpolation opt items !! q = items !! q) /\
       (length items <= L \/
        (L + m <= length items /\
         inferMissingByInterpolation opt items !! p = f <$> items !! p))).
  { intros [_ [Hbad|[_ H]]]; [|done]. destruct Hseg as (? & ? & _). lia. }
  apply (inferMissing_invariant opt items (fun i its =>
    (forall q, i <= q -> its !! q = items !! q) /\
    (i <= L \/ (L + m <= i /\ its !! p = f <$> items !! p)))).
  - split; [done|left; lia].
  - intros i its [Hrest Hdone] Hs Ha. split.
    + intros q Hq. apply Hrest. lia.
    + destruct Hdone as [Hle|[? ?]]; [left|right; split; [lia|done]].
      destruct (decide (i = L)) as [->|]; [|lia].
      destruct Hseg as (? & ? & Hrun & _). rewrite Hrun in Ha by lia. done.
  - intros L' m' its [Hrest Hdone] Hs Hseg'. split.
    + intros q Hq. rewrite fillSegment_lookup.
      case_decide; [lia|]. apply Hrest. lia.
    + destruct Hdone as [Hle|[Hle Hf]].
      * destruct (decide (L' = L)) as [->|Hne].
        -- right. rewrite (segmentRun_unique _ _ _ _ Hseg' Hseg). split; [done|].
           rewrite fillSegment_lookup. case_decide; [|lia].
           by rewrite Hrest by lia.
        -- left. apply (segmentRun_before _ _ _ _ _ Hseg Hseg'). lia.
      * right. destruct Hseg' as (? & _). split; [lia|].
        rewrite fillSegment_lookup. case_decide; [lia|done].
Qed.

(** ** What the stages leave alone *)

Lemma clearTarget_setTarget it t r : clearTarget (setTarget it t r) = clearTarget it.
Proof. done. Qed.

Lemma clearTarget_applyPlan plan it : clearTarget (applyPlan plan it) = clearTarget it.
Proof.
  destruct plan as [[t r]|]; [|done]. unfold applyPlan, assignIfEmpty.
  by destruct (target it).
Qed.

Lemma clearTarget_bumpItem step prev it t :
  clearTarget (bumpItem step prev it t) = clearTarget it.
Proof. unfold bumpItem. destruct prev; [|done]. by destruct (_ && _). Qed.

Lemma clearTarget_override win32 parse opt it :
  clearTarget (applyFilenameOverrideForTarget win32 parse opt it) = clearTarget it.
Proof. unfold applyFilenameOverrideForTarget. repeat case_match; done. Qed.

Lemma clearTarget_assignShot it : clearTarget (assignShotAsTarget it) = clearTarget it.
Proof. unfold assignShotAsTarget. repeat case_match; done. Qed.

Lemma clearTarget_fields it it' :
  clearTarget it' = clearTarget it ->
  path it' = path it /\ mtime it' = mtime it /\ ctime it' = ctime it /\
  wtime it' = wtime it /\ shot it' = shot it /\ shotSource it' = shotSource it.
Proof. unfold clearTarget. intros [= -> -> -> -> -> ->]. done. Qed.

Lemma fillSegment_clear opt L m Tprev Tnext items :
  clearTarget <$> fillSegment opt L m Tprev Tnext items = clearTarget <$> items.
Proof.
  apply list_eq. intros p. rewrite !list_lookup_fmap, fillSegment_lookup.
  case_decide; [|done].
  destruct (items !! p) as [it|]; [|done]. simpl. by rewrite clearTarget_applyPlan.
Qed.

Lemma inferMissing_clear opt items :
  clearTarget <$> inferMissingByInterpolation opt items = clearTarget <$> items.
Proof.
  apply (inferMissing_invariant opt items
           (fun _ its => clearTarget <$> its = clearTarget <$> items)); try done.
  intros L m its Hc _ _. by rewrite fillSegment_clear.
Qed.

Lemma uniqueLoop_clear step prev items :
  clearTarget <$> uniqueLoop step prev items = clearTarget <$> items.
Proof.
  revert prev. induction items as [|it rest IH]; intros prev; [done|].
  simpl. destruct (target it); simpl; rewrite IH; [|done].
  by rewrite clearTarget_bumpItem.
Qed.

Lemma fmap_clear_ext (f : Item -> Item) (l : list Item) :
  (forall it, clearTarget (f it) = clearTarget it) ->
  clearTarget <$> (f <$> l) = clearTarget <$> l.
Proof.
  intros Hf. rewrite <-list_fmap_compose. apply list_fmap_ext.
  intros i it _. apply Hf.
Qed.

Lemma resolveTargets_clear win32 readMeta parse opt items :
  clearTarget <$> resolveTargets win32 readMeta parse opt items =
  clearTarget <$> sortItems (fillShotTime readMeta parse opt <$> items).
Proof.
  unfold resolveTargets, makeFilledTargetsStrictlyIncreasing.
  rewrite uniqueLoop_clear, inferMissing_clear.
  rewrite (fmap_clear_ext _ _ clearTarget_assignShot).
  destruct (enableFilenameOverrideForTarget opt); [|done].
  apply fmap_clear_ext, clearTarget_override.
Qed.

(** ** The guarded assignment, field by field *)

(** An item whose target is unset leaves the guarded assignment with the
    time and the reason it was handed, and is otherwise the same. *)
Lemma assignIfEmpty_unset t r (l out : list Item) idx it :
  out !! idx = assignIfEmpty t r <$> l !! idx ->
  l !! idx = Some it -> target it = None ->
  target <$> out !! idx = Some (Some t)
  /\ targetReason <$> out !! idx = Some r
  /\ clearTarget <$> out !! idx = Some (clearTarget it).
Proof.
  intros -> -> Ht. simpl. unfold assignIfEmpty. by rewrite Ht.
Qed.

(** An item whose target is set leaves it unchanged. *)
Lemma assignIfEmpty_preset t r (l out : list Item) idx it :
  out !! idx = assignIfEmpty t r <$> l !! idx ->
  l !! idx = Some it -> target it ≠ None -> out !! idx = Some it.
Proof.
  intros -> -> Ht. simpl. by rewrite assignIfEmpty_set.
Qed.

(** ** Integer interpolation *)

Lemma quot_interpolation g k d :
  (0 < k < d)%Z -> (d <= Z.abs g)%Z ->
  ((0 < g -> 0 < Z.quot (g * k) d < g) /\
   (g < 0 -> g < Z.quot (g * k) d < 0))%Z.
Proof.
  intros Hk Hg. split; intros Hs.
  - rewrite Z.quot_div_nonneg by lia. split.
    + apply Z.div_str_pos. nia.
    + apply Z.div_lt_upper_bound; nia.
  - replace (g * k)%Z with (- ((- g) * k))%Z by lia.
    rewrite Z.quot_opp_l by lia.
    rewrite Z.quot_div_nonneg by lia.
    assert (0 < (- g * k) / d < - g)%Z; [|lia]. split.
    + apply Z.div_str_pos. nia.
    + apply Z.div_lt_upper_bound; nia.
Qed.

Lemma fits64_between a b x : fits64 a -> fits64 b ->
  (a <= x <= b \/ b <= x <= a)%Z -> fits64 x.
Proof. unfold fits64. lia. Qed.

Lemma fits64_mul_le a b c :
  fits64 (Z.abs a * c) -> (0 <= b <= c)%Z -> fits64 (a * b).
Proof. unfold fits64. nia. Qed.

(** ** The regimes of the gap inference *)

Section Regimes.

Variable opt : Options.
Variable items : list Item.
Variables L m : nat.
Hypothesis segment : isSegment items L m = true.

Lemma regime_member j :
  j < m ->
  inferMissingByInterpolation opt items !! (L + j) =
  applyPlan (memberTarget opt m (prevAnchorTime items L)
               (nextAnchorTime items (L + m - 1)) j) <$> items !! (L + j).
Proof.
  intros Hj.
  rewrite (inferMissing_segment opt items L m (L + j)); [|by apply isSegment_run|lia].
  by replace (L + j - L) with j by lia.
Qed.

(** In a segment of [m] items between the anchor times [tp] and
    [tn], with gap [tn - tp] of absolute value at most the gap limit
    and at least [m + 1], the [k]-th member (k = 1..m) is assigned
    [tp + gap * k / (m + 1)], the division truncating toward zero, by
    the guarded assignment of the engine, and that time lies strictly
    between the two anchor times. *)
Lemma interpolation_assigns tp tn k :
  prevAnchorTime items L = Some tp ->
  nextAnchorTime items (L + m - 1) = Some tn ->
  fits64 tp -> fits64 tn ->
  fits64 (Z.abs (tn - tp) * Z.of_nat m) ->
  fits64 (anchorGapLimitDays opt * 86400) ->
  (Z.abs (tn - tp) <= anchorGapLimitDays opt * 86400)%Z ->
  (Z.abs (tn - tp) >= Z.of_nat m + 1)%Z ->
  1 <= k <= m ->
  let t := (tp + Z.quot ((tn - tp) * Z.of_nat k) (Z.of_nat m + 1))%Z in
  inferMissingByInterpolation opt items !! (L + (k - 1)) =
    assignIfEmpty t "interpolated between anchors" <$> items !! (L + (k - 1))
  /\ ((tp < t < tn)%Z \/ (tn < t < tp)%Z).
Proof.
  intros Hp Hn Ftp Ftn Fgm Flim Hle Hge Hk t.
  assert (Fabs : fits64 (Z.abs (tn - tp))) by (unfold fits64 in *; nia).
  pose proof (fits64_abs _ Fabs) as Fgap.
  destruct (quot_interpolation (tn - tp) (Z.of_nat k) (Z.of_nat m + 1))
    as [Hpos Hneg]; [lia|lia|].
  assert (Hbetween : (tp < t < tn)%Z \/ (tn < t < tp)%Z).
  { subst t. destruct (decide (0 < tn - tp)%Z); [left|right]; lia. }
  split; [|done].
  rewrite regime_member by lia. rewrite Hp, Hn. unfold memberTarget.
  unfold mul64 at 1. rewrite (wrap64_fits _ Flim).
  unfold sub64. rewrite (wrap64_fits _ Fgap), (llabs_fits _ Fabs).
  destruct (_ <? _)%Z eqn:E1; [apply Z.ltb_lt in E1; lia|].
  destruct (Z.abs _ <? _)%Z eqn:E2; [apply Z.ltb_lt in E2; lia|].
  replace (1 + (k - 1)) with k by lia.
  unfold add64, div64, mul64.
  assert (Fgk : fits64 ((tn - tp) * Z.of_nat k))
    by (apply (fits64_mul_le _ _ (Z.of_nat m)); [done|lia]).
  rewrite (wrap64_fits _ Fgk).
  replace (Z.of_nat (m + 1)) with (Z.of_nat m + 1)%Z by lia.
  rewrite (wrap64_fits (Z.quot _ _)) by (unfold fits64 in *; lia).
  rewrite (wrap64_fits (tp + _)); [done|].
  apply (fits64_between tp tn); [done|done|]. fold t. lia.
Qed.

(** When the gap between the two anchor times exceeds the gap
    limit (the configured days, in seconds) nothing is interpolated:
    the members at offsets below [m / 2] are assigned the earlier
    anchor's time, all the others the later anchor's time. *)
Lemma nearest_anchor_assigns tp tn j :
  prevAnchorTime items L = Some tp ->
  nextAnchorTime items (L + m - 1) = Some tn ->
  fits64 (Z.abs (tn - tp)) ->
  fits64 (anchorGapLimitDays opt * 86400) ->
  (Z.abs (tn - tp) > anchorGapLimitDays opt * 86400)%Z ->
  j < m ->
  (j < m / 2 ->
     inferMissingByInterpolation opt items !! (L + j) =
     assignIfEmpty tp "gap too large -> nearest anchor fill" <$> items !! (L + j))
  /\ (m / 2 <= j ->
     inferMissingByInterpolation opt items !! (L + j) =
     assignIfEmpty tn "gap too large -> nearest anchor fill" <$> items !! (L + j)).
Proof.
  intros Hp Hn Fabs Flim Hgt Hj.
  pose proof (fits64_abs _ Fabs) as Fgap.
  rewrite regime_member by done. rewrite Hp, Hn. unfold memberTarget.
  unfold mul64, sub64.
  rewrite (wrap64_fits _ Flim), (wrap64_fits _ Fgap), (llabs_fits _ Fabs).
  destruct (_ <? _)%Z eqn:E1; [|apply Z.ltb_ge in E1; lia].
  split; intros Hhalf.
  - by destruct (Nat.ltb_spec j (m / 2)); [|lia].
  - by destruct (Nat.ltb_spec j (m / 2)); [lia|].
Qed.

(** When the two anchor times are closer than
    [m + 1] seconds (and within the gap limit) the segment is
    step-filled from the earlier anchor in the direction [+1] when the
    gap is zero or positive and [-1] when it is negative: the [k]-th
    member is assigned [tp + dir * k * step].  For a zero gap the
    members therefore get [tp + k * step], distinct times. *)
Lemma close_anchors_assigns tp tn k :
  prevAnchorTime items L = Some tp ->
  nextAnchorTime items (L + m - 1) = Some tn ->
  fits64 (Z.abs (tn - tp)) ->
  fits64 (anchorGapLimitDays opt * 86400) ->
  (Z.abs (tn - tp) <= anchorGapLimitDays opt * 86400)%Z ->
  (Z.abs (tn - tp) < Z.of_nat m + 1)%Z ->
  1 <= k <= m ->
  let dir := if (0 <=? tn - tp)%Z then 1%Z else (-1)%Z in
  let step := oneSideStepSeconds opt in
  fits64 (Z.of_nat k) ->
  fits64 (dir * Z.of_nat k * step) ->
  fits64 (tp + dir * Z.of_nat k * step) ->
  inferMissingByInterpolation opt items !! (L + (k - 1)) =
    assignIfEmpty (tp + dir * Z.of_nat k * step) "anchors too close -> step-filled"
      <$> items !! (L + (k - 1)).
Proof.
  intros Hp Hn Fabs Flim Hle Hlt Hk dir step Fk Fks Ft.
  pose proof (fits64_abs _ Fabs) as Fgap.
  rewrite regime_member by lia. rewrite Hp, Hn. unfold memberTarget.
  unfold mul64 at 1. unfold sub64.
  rewrite (wrap64_fits _ Flim), (wrap64_fits _ Fgap), (llabs_fits _ Fabs).
  destruct (_ <? _)%Z eqn:E1; [apply Z.ltb_lt in E1; lia|].
  destruct (Z.abs _ <? _)%Z eqn:E2; [|apply Z.ltb_ge in E2; lia].
  replace (1 + (k - 1)) with k by lia.
  fold dir step. unfold add64, mul64.
  rewrite (wrap64_fits (dir * Z.of_nat k)).
  - by rewrite (wrap64_fits _ Fks), (wrap64_fits _ Ft).
  - subst dir. destruct (0 <=? tn - tp)%Z; unfold fits64 in *; lia.
Qed.

(** A segment with an anchor on one side only:
    after the earlier anchor [tp] the [k]-th member is assigned
    [tp + k * step] when stepping is enabled and [tp] when it is
    disabled; before the later anchor [tn] the [k]-th member is
    assigned [tn - (m - k + 1) * step] when stepping is enabled, so
    that the last member gets [tn - step], before the anchor for a
    positive step, and [tn] when stepping is disabled. *)
Lemma one_sided_assigns k :
  1 <= k <= m ->
  let step := oneSideStepSeconds opt in
  (forall tp,
     prevAnchorTime items L = Some tp ->
     nextAnchorTime items (L + m - 1) = None ->
     (oneSideStep opt = true ->
      fits64 (Z.of_nat k * step) -> fits64 (tp + Z.of_nat k * step) ->
      inferMissingByInterpolation opt items !! (L + (k - 1)) =
        assignIfEmpty (tp + Z.of_nat k * step) "only prev anchor -> filled +1s steps"
          <$> items !! (L + (k - 1)))
     /\ (oneSideStep opt = false ->
         inferMissingByInterpolation opt items !! (L + (k - 1)) =
           assignIfEmpty tp "only prev anchor -> filled" <$> items !! (L + (k - 1))))
  /\ (forall tn,
     prevAnchorTime items L = None ->
     nextAnchorTime items (L + m - 1) = Some tn ->
     (oneSideStep opt = true ->
      fits64 ((Z.of_nat m - Z.of_nat k + 1) * step) ->
      fits64 (tn - (Z.of_nat m - Z.of_nat k + 1) * step) ->
      inferMissingByInterpolation opt items !! (L + (k - 1)) =
        assignIfEmpty (tn - (Z.of_nat m - Z.of_nat k + 1) * step)
          "only next anchor -> filled -1s steps" <$> items !! (L + (k - 1))
      /\ (k = m -> (tn - (Z.of_nat m - Z.of_nat k + 1) * step = tn - step)%Z)
      /\ (1 <= step -> tn - (Z.of_nat m - Z.of_nat k + 1) * step < tn)%Z)
     /\ (oneSideStep opt = false ->
         inferMissingByInterpolation opt items !! (L + (k - 1)) =
           assignIfEmpty tn "only next anchor -> filled" <$> items !! (L + (k - 1)))).
Proof.
  intros Hk step. split.
  - intros tp Hp Hn. rewrite regime_member by lia. rewrite Hp, Hn.
    unfold memberTarget. split.
    + intros -> Fks Ft. fold step. unfold add64, mul64.
      replace (Z.of_nat (k - 1 + 1)) with (Z.of_nat k) by lia.
      by rewrite (wrap64_fits _ Fks), (wrap64_fits _ Ft).
    + by intros ->.
  - intros tn Hp Hn. rewrite regime_member by lia. rewrite Hp, Hn.
    unfold memberTarget. split.
    + intros -> Fks Ft. fold step. unfold sub64, mul64.
      replace (Z.of_nat (m - (k - 1))) with (Z.of_nat m - Z.of_nat k + 1)%Z by lia.
      rewrite (wrap64_fits _ Fks), (wrap64_fits _ Ft).
      split; [done|]. split; [intros ->; lia|nia].
    + by intros ->.
Qed.

(** C1, as the code has it. In a segment of [m] items between the
    anchor times [tp] and [tn], with gap [tn - tp] of absolute value at
    most the gap limit and at least [m + 1], the [k]-th member
    (k = 1..m) whose target is not yet set leaves the gap inference
    with target [tp + gap * k / (m + 1)], the division truncating toward
    zero, and the reason of the regime, all its other fields unchanged;
    that time lies strictly between the two anchor times.  A member
    whose target is already set keeps it. *)
Theorem interpolation_between_anchors tp tn k it :
  prevAnchorTime items L = Some tp ->
  nextAnchorTime items (L + m - 1) = Some tn ->
  fits64 tp -> fits64 tn ->
  fits64 (Z.abs (tn - tp) * Z.of_nat m) ->
  fits64 (anchorGapLimitDays opt * 86400) ->
  (Z.abs (tn - tp) <= anchorGapLimitDays opt * 86400)%Z ->
  (Z.abs (tn - tp) >= Z.of_nat m + 1)%Z ->
  1 <= k <= m ->
  items !! (L + (k - 1)) = Some it ->
  let t := (tp + Z.quot ((tn - tp) * Z.of_nat k) (Z.of_nat m + 1))%Z in
  let out := inferMissingByInterpolation opt items in
  (target it = None ->
     target <$> out !! (L + (k - 1)) = Some (Some t)
     /\ targetReason <$> out !! (L + (k - 1)) = Some "interpolated between anchors"
     /\ clearTarget <$> out !! (L + (k - 1)) = Some (clearTarget it))
  /\ (target it ≠ None -> out !! (L + (k - 1)) = Some it)
  /\ ((tp < t < tn)%Z \/ (tn < t < tp)%Z).
Proof.
  intros Hp Hn Ftp Ftn Fgm Flim Hle Hge Hk Hit t out.
  destruct (interpolation_assigns tp tn k Hp Hn Ftp Ftn Fgm Flim Hle Hge Hk)
    as [Hout Hbetween].
  split; [|split; [|done]].
  - intros Ht. by apply (assignIfEmpty_unset _ _ items).
  - intros Ht. by apply (assignIfEmpty_preset _ _ items _ _ _ Hout).
Qed.

(** C6, as the code has it. When the gap between the two anchor times
    exceeds the gap limit (the configured days, in seconds) nothing is
    interpolated: a member whose target is not yet set leaves the gap
    inference with the earlier anchor's time when its offset is below
    [m / 2] and with the later anchor's time otherwise, all its other
    fields unchanged.  A member whose target is already set keeps it. *)
Theorem nearest_anchor_fill tp tn j it :
  prevAnchorTime items L = Some tp ->
  nextAnchorTime items (L + m - 1) = Some tn ->
  fits64 (Z.abs (tn - tp)) ->
  fits64 (anchorGapLimitDays opt * 86400) ->
  (Z.abs (tn - tp) > anchorGapLimitDays opt * 86400)%Z ->
  j < m ->
  items !! (L + j) = Some it ->
  let out := inferMissingByInterpolation opt items in
  (target it = None ->
     (j < m / 2 -> target <$> out !! (L + j) = Some (Some tp))
     /\ (m / 2 <= j -> target <$> out !! (L + j) = Some (Some tn))
     /\ targetReason <$> out !! (L + j) = Some "gap too large -> nearest anchor fill"
     /\ clearTarget <$> out !! (L + j) = Some (clearTarget it))
  /\ (target it ≠ None -> out !! (L + j) = Some it).
Proof.
  intros Hp Hn Fabs Flim Hgt Hj Hit out.
  destruct (nearest_anchor_assigns tp tn j Hp Hn Fabs Flim Hgt Hj) as [Hlow Hhigh].
  destruct (decide (j < m / 2)) as [Hlt|Hge].
  - specialize (Hlow Hlt). split.
    + intros Ht.
      destruct (assignIfEmpty_unset _ _ items _ _ _ Hlow Hit Ht) as (H1 & H2 & H3).
      split; [done|]. split; [lia|done].
    + intros Ht. by apply (assignIfEmpty_preset _ _ items _ _ _ Hlow).
  - assert (Hhalf : m / 2 <= j) by lia.
    specialize (Hhigh Hhalf). split.
    + intros Ht.
      destruct (assignIfEmpty_unset _ _ items _ _ _ Hhigh Hit Ht) as (H1 & H2 & H3).
      split; [done|]. split; [done|done].
    + intros Ht. by apply (assignIfEmpty_preset _ _ items _ _ _ Hhigh).
Qed.

(** C3, as the code has it. When the two anchor times are closer than
    [m + 1] seconds (and within the gap limit) the segment is
    step-filled from the earlier anchor in the direction [+1] when the
    gap is zero or positive and [-1] when it is negative: the [k]-th
    member whose target is not yet set leaves the gap inference with
    target [tp + dir * k * step], all its other fields unchanged.  For
    a zero gap that is [tp + k * step], not [tp].  A member whose target
    is already set keeps it. *)
Theorem close_anchors_step_fill tp tn k it :
  prevAnchorTime items L = Some tp ->
  nextAnchorTime items (L + m - 1) = Some tn ->
  fits64 (Z.abs (tn - tp)) ->
  fits64 (anchorGapLimitDays opt * 86400) ->
  (Z.abs (tn - tp) <= anchorGapLimitDays opt * 86400)%Z ->
  (Z.abs (tn - tp) < Z.of_nat m + 1)%Z ->
  1 <= k <= m ->
  items !! (L + (k - 1)) = Some it ->
  let dir := if (0 <=? tn - tp)%Z then 1%Z else (-1)%Z in
  let step := oneSideStepSeconds opt in
  fits64 (Z.of_nat k) ->
  fits64 (dir * Z.of_nat k * step) ->
  fits64 (tp + dir * Z.of_nat k * step) ->
  let out := inferMissingByInterpolation opt items in
  (target it = None ->
     target <$> out !! (L + (k - 1)) = Some (Some (tp + dir * Z.of_nat k * step)%Z)
     /\ targetReason <$> out !! (L + (k - 1)) = Some "anchors too close -> step-filled"
     /\ clearTarget <$> out !! (L + (k - 1)) = Some (clearTarget it)
     /\ (tn = tp ->
         target <$> out !! (L + (k - 1)) = Some (Some (tp + Z.of_nat k * step)%Z)))
  /\ (target it ≠ None -> out !! (L + (k - 1)) = Some it).
Proof.
  intros Hp Hn Fabs Flim Hle Hlt Hk Hit dir step Fk Fks Ft out.
  pose proof (close_anchors_assigns tp tn k Hp Hn Fabs Flim Hle Hlt Hk Fk Fks Ft)
    as Hout.
  split.
  - intros Ht.
    destruct (assignIfEmpty_unset _ _ items _ _ _ Hout Hit Ht) as (H1 & H2 & H3).
    split; [done|]. split; [done|]. split; [done|].
    intros ->. unfold out. rewrite H1. do 3 f_equal. subst dir.
    replace (tp - tp)%Z with 0%Z by lia. simpl. lia.
  - intros Ht. by apply (assignIfEmpty_preset _ _ items _ _ _ Hout).
Qed.

(** C7, as the code has it. A segment with an anchor on one side only.
    After the earlier anchor [tp] the [k]-th member whose target is not
    yet set leaves the gap inference with target [tp + k * step] when
    stepping is enabled and [tp] when it is disabled.  Before the later
    anchor [tn] it leaves with target [tn - (m - k + 1) * step] when
    stepping is enabled, so that the last member gets [tn - step],
    before the anchor for a positive step, and with [tn] when stepping
    is disabled.  All its other fields are unchanged, and a member whose
    target is already set keeps it. *)
Theorem one_sided_fill k it :
  1 <= k <= m ->
  items !! (L + (k - 1)) = Some it ->
  let step := oneSideStepSeconds opt in
  let out := inferMissingByInterpolation opt items in
  (forall tp,
     prevAnchorTime items L = Some tp ->
     nextAnchorTime items (L + m - 1) = None ->
     (oneSideStep opt = true ->
      fits64 (Z.of_nat k * step) -> fits64 (tp + Z.of_nat k * step) ->
      target it = None ->
      target <$> out !! (L + (k - 1)) = Some (Some (tp + Z.of_nat k * step)%Z)
      /\ targetReason <$> out !! (L + (k - 1))
         = Some "only prev anchor -> filled +1s steps"
      /\ clearTarget <$> out !! (L + (k - 1)) = Some (clearTarget it))
     /\ (oneSideStep opt = false ->
         target it = None ->
         target <$> out !! (L + (k - 1)) = Some (Some tp)
         /\ targetReason <$> out !! (L + (k - 1)) = Some "only prev anchor -> filled"
         /\ clearTarget <$> out !! (L + (k - 1)) = Some (clearTarget it)))
  /\ (forall tn,
     prevAnchorTime items L = None ->
     nextAnchorTime items (L + m - 1) = Some tn ->
     (oneSideStep opt = true ->
      fits64 ((Z.of_nat m - Z.of_nat k + 1) * step) ->
      fits64 (tn - (Z.of_nat m - Z.of_nat k + 1) * step) ->
      (target it = None ->
       target <$> out !! (L + (k - 1))
         = Some (Some (tn - (Z.of_nat m - Z.of_nat k + 1) * step)%Z)
       /\ targetReason <$> out !! (L + (k - 1))
          = Some "only next anchor -> filled -1s steps"
       /\ clearTarget <$> out !! (L + (k - 1)) = Some (clearTarget it))
      /\ (k = m -> (tn - (Z.of_nat m - Z.of_nat k + 1) * step = tn - step)%Z)
      /\ (1 <= step -> tn - (Z.of_nat m - Z.of_nat k + 1) * step < tn)%Z)
     /\ (oneSideStep opt = false ->
         target it = None ->
         target <$> out !! (L + (k - 1)) = Some (Some tn)
         /\ targetReason <$> out !! (L + (k - 1)) = Some "only next anchor -> filled"
         /\ clearTarget <$> out !! (L + (k - 1)) = Some (clearTarget it)))
  /\ (target it ≠ None -> out !! (L + (k - 1)) = Some it).
Proof.
  intros Hk Hit step out.
  destruct (one_sided_assigns k Hk) as [Hprev Hnext].
  split; [|split].
  - intros tp Hp Hn. destruct (Hprev tp Hp Hn) as [Hstep Hflat]. split.
    + intros Hon Fks Ft Ht.
      by apply (assignIfEmpty_unset _ _ items _ _ _ (Hstep Hon Fks Ft)).
    + intros Hoff Ht. by apply (assignIfEmpty_unset _ _ items _ _ _ (Hflat Hoff)).
  - intros tn Hp Hn. destruct (Hnext tn Hp Hn) as [Hstep Hflat]. split.
    + intros Hon Fks Ft. destruct (Hstep Hon Fks Ft) as (Hout & Hlast & Hbefore).
      split; [|done].
      intros Ht. by apply (assignIfEmpty_unset _ _ items _ _ _ Hout).
    + intros Hoff Ht. by apply (assignIfEmpty_unset _ _ items _ _ _ (Hflat Hoff)).
  - intros Ht. by apply inferMissing_keeps_set.
Qed.

End Regimes.

(** ** The uniqueness pass *)



Lemma bumpItem_target step prev it t :
  target it = Some t -> is_Some (target (bumpItem step prev it t)).
Proof.
  intros Ht. unfold bumpItem. destruct prev as [p|]; [|by rewrite Ht].
  destruct (_ && _); [by simpl|by rewrite Ht].
Qed.

Lemma bumpItem_anchor step prev it t : shot it ≠ None -> bumpItem step prev it t = it.
Proof.
  intros Hs. unfold bumpItem, hasShot. destruct prev; [|done].
  by destruct (shot it).
Qed.


(** Each item leaves the sweep as one iteration of the loop leaves it,
    the iteration starting with [prevTarget] equal to the last target
    among the items already swept. *)
Lemma uniqueLoop_lookup step prev items i it :
  items !! i = Some it ->
  uniqueLoop step prev items !! i =
  Some (match target it with
        | None => it
        | Some t => bumpItem step (lastTarget prev (take i (uniqueLoop step prev items))) it t
        end).
Proof.
  revert prev i. induction items as [|it0 rest IH]; intros prev i Hit; [done|].
  destruct i as [|i]; simpl in Hit.
  - simplify_eq. simpl. by destruct (target it).
  - simpl. destruct (target it0) as [t0|] eqn:Ht0; simpl.
    + rewrite (IH _ _ Hit).
      destruct (bumpItem_target step prev it0 t0 Ht0) as [t0' Ht0'].
      by rewrite Ht0'.
    + rewrite (IH _ _ Hit). by rewrite Ht0.
Qed.


(** An item that an iteration has left with target [t'] is left alone
    by the same iteration run again, provided the addition of the step
    did not wrap. *)
Lemma bumpItem_stable step prev it t t' :
  (1 <= step)%Z ->
  (forall p, prev = Some p -> fits64 (p + step)) ->
  target it = Some t ->
  target (bumpItem step prev it t) = Some t' ->
  bumpItem step prev (bumpItem step prev it t) t' = bumpItem step prev it t.
Proof.
  intros Hstep Hprev Ht. unfold bumpItem.
  destruct prev as [p|]; [|done].
  destruct (negb (hasShot it) && (t <=? p)%Z) eqn:Hb.
  - simpl. intros [= <-].
    unfold add64. rewrite (wrap64_fits _ (Hprev p eq_refl)).
    destruct (Z.leb_spec (p + step) p); [lia|]. by rewrite andb_false_r.
  - rewrite Ht. intros [= <-]. by rewrite Hb.
Qed.

(** A second sweep bumps nothing. *)
Lemma uniqueLoop_idempotent step prev items :
  (1 <= step)%Z ->
  (forall p, prev = Some p -> fits64 (p + step)) ->
  Forall (fun it => forall t, target it = Some t -> fits64 (t + step))
         (uniqueLoop step prev items) ->
  uniqueLoop step prev (uniqueLoop step prev items) = uniqueLoop step prev items.
Proof.
  intros Hstep. revert prev.
  induction items as [|it rest IH]; intros prev Hprev Hall; [done|].
  simpl in *. destruct (target it) as [t|] eqn:Ht; simpl.
  - inversion_clear Hall as [|? ? Hit Hrest].
    destruct (bumpItem_target step prev it t Ht) as [t' Ht'].
    rewrite Ht'.
    rewrite (bumpItem_stable step prev it t t' Hstep Hprev Ht Ht').
    f_equal. rewrite Ht'. apply IH; [|by rewrite <-Ht'].
    intros p [= <-]. by apply Hit.
  - rewrite Ht. inversion_clear Hall as [|? ? Hit Hrest].
    f_equal. by apply IH.
Qed.



(** ** The sort *)

Lemma itemLess_asym a b : itemLess a b = true -> itemLess b a = false.
Proof.
  unfold itemLess. rewrite (Z.eqb_sym (mtime b) (mtime a)).
  destruct (Z.eqb_spec (mtime a) (mtime b)) as [Heq|Hne]; simpl.
  - unfold String.ltb. rewrite (String.compare_antisym (path a) (path b)).
    by destruct (String.compare (path b) (path a)).
  - intros Hlt%Z.ltb_lt. apply Z.ltb_ge. lia.
Qed.

#[global] Instance itemOrder_total : Total itemOrder.
Proof.
  intros a b. unfold itemOrder.
  destruct (itemLess b a) eqn:Hba; [right|by left].
  by apply itemLess_asym.
Qed.

(** The sorted vector holds the same items, and none of them is less
    than its predecessor. *)
Lemma sortItems_sorted items :
  sortItems items ≡ₚ items /\ Sorted itemOrder (sortItems items).
Proof.
  split; [apply merge_sort_Permutation|apply (Sorted_merge_sort itemOrder)].
Qed.

(** ** The file-name override and the default assignment *)

Lemma override_shot win32 parse opt it :
  shot (applyFilenameOverrideForTarget win32 parse opt it) = shot it.
Proof.
  unfold applyFilenameOverrideForTarget. repeat case_match; done.
Qed.

Lemma assignShotAsTarget_shot it : shot (assignShotAsTarget it) = shot it.
Proof. unfold assignShotAsTarget. repeat case_match; done. Qed.

Lemma assignShotAsTarget_target it :
  shot it ≠ None -> target (assignShotAsTarget it) ≠ None.
Proof.
  unfold assignShotAsTarget. intros Hs.
  destruct (target it) eqn:Ht; [by rewrite Ht|].
  by destruct (shot it).
Qed.

Lemma assignShotAsTarget_set it : target it ≠ None -> assignShotAsTarget it = it.
Proof. unfold assignShotAsTarget. by destruct (target it). Qed.

(** C4. With overriding enabled and a file-name time [F] for the item:
    on a build that has the create and write times and for an item that
    carries both, the target becomes [F] exactly when both drifts from
    [F] exceed the threshold (the configured days, in seconds); in every
    other case the only time compared is the modification time, and the
    target becomes [F] exactly when its drift exceeds the threshold; an
    item that is not overridden is left as it was; and an item whose
    target the override has set is left as it is by the default
    assignment. *)
Theorem filename_override_rule win32 parse opt it F :
  enableFilenameOverrideForTarget opt = true ->
  parse (path it) = Some F ->
  fits64 (filenameOverrideDays opt * 86400) ->
  let threshold := (filenameOverrideDays opt * 86400)%Z in
  let it' := applyFilenameOverrideForTarget win32 parse opt it in
  (forall c w,
     win32 = true -> ctime it = Some c -> wtime it = Some w ->
     fits64 (Z.abs (c - F)) -> fits64 (Z.abs (w - F)) ->
     let both := (Z.abs (c - F) > threshold /\ Z.abs (w - F) > threshold)%Z in
     (both -> it' = setTarget it F "filename override (fs create/write too far)")
     /\ (~ both -> it' = it)
     /\ (target it = None -> (target it' = Some F <-> both)))
  /\ (win32 = false \/ ctime it = None \/ wtime it = None ->
      fits64 (Z.abs (mtime it - F)) ->
      let far := (Z.abs (mtime it - F) > threshold)%Z in
      (far -> it' = setTarget it F "filename override (mtime too far)")
      /\ (~ far -> it' = it)
      /\ (target it = None -> (target it' = Some F <-> far)))
  /\ (target it' = Some F -> assignShotAsTarget it' = it').
Proof.
  intros Hen Hparse Fthr threshold it'.
  assert (Hit' : it' = applyFilenameOverrideForTarget win32 parse opt it) by done.
  unfold applyFilenameOverrideForTarget in Hit'.
  rewrite Hen, Hparse in Hit'. simpl in Hit'.
  unfold mul64 in Hit'. rewrite (wrap64_fits _ Fthr) in Hit'. fold threshold in Hit'.
  split; [|split].
  - intros c w -> Hc Hw Fc Fw both. rewrite Hc, Hw in Hit'.
    rewrite (absDiffSec_fits _ _ Fc), (absDiffSec_fits _ _ Fw) in Hit'.
    assert (Hb : (threshold <? Z.abs (c - F))%Z && (threshold <? Z.abs (w - F))%Z = true
                 <-> both).
    { rewrite andb_true_iff, !Z.ltb_lt. unfold both. lia. }
    destruct ((threshold <? Z.abs (c - F))%Z && (threshold <? Z.abs (w - F))%Z) eqn:E.
    + apply proj1 in Hb. specialize (Hb eq_refl).
      split; [done|]. split; [done|].
      intros _. by rewrite Hit'.
    + assert (Hnb : ~ both) by (intros Hboth; apply Hb in Hboth; done).
      split; [done|]. split; [done|].
      intros Ht. rewrite Hit', Ht. split; [done|by intros ?%Hnb].
  - intros Hcase Fm far.
    assert (Hm : it' = if (threshold <? Z.abs (mtime it - F))%Z
                       then setTarget it F "filename override (mtime too far)"
                       else it).
    { rewrite <-(absDiffSec_fits _ _ Fm). rewrite Hit'.
      destruct win32; [|done].
      destruct Hcase as [?|[Hc|Hw]]; [done|by rewrite Hc|].
      rewrite Hw. by destruct (ctime it). }
    assert (Hb : (threshold <? Z.abs (mtime it - F))%Z = true <-> far).
    { rewrite Z.ltb_lt. unfold far. lia. }
    clear Hit'. destruct (threshold <? Z.abs (mtime it - F))%Z eqn:E.
    + apply proj1 in Hb. specialize (Hb eq_refl).
      split; [done|]. split; [done|].
      intros _. by rewrite Hm.
    + assert (Hnb : ~ far) by (intros Hfar; apply Hb in Hfar; done).
      split; [done|]. split; [done|].
      intros Ht. rewrite Hm, Ht. split; [done|by intros ?%Hnb].
  - intros Ht. apply assignShotAsTarget_set. by rewrite Ht.
Qed.

(** ** Targets that are already set *)

(** C8. The gap inference leaves every item whose target is already set
    (by the override or by the default assignment) exactly as it is,
    target and reason included. *)
Theorem inference_keeps_set_targets opt items i it :
  items !! i = Some it -> target it ≠ None ->
  inferMissingByInterpolation opt items !! i = Some it.
Proof. apply inferMissing_keeps_set. Qed.

Lemma inferMissing_resolved opt items :
  Forall (fun it => target it ≠ None) items ->
  inferMissingByInterpolation opt items = items.
Proof.
  intros Hall. apply list_eq. intros p.
  destruct (items !! p) as [it|] eqn:Hit.
  - apply inferMissing_keeps_set; [done|].
    by apply (proj1 (Forall_lookup _ _) Hall p).
  - apply lookup_ge_None. rewrite inferMissing_length. by apply lookup_ge_None.
Qed.

(** C9. On a sequence that the gap inference and the uniqueness pass
    have produced and in which every target is set, running the two
    again changes nothing, neither target nor reason. *)
Theorem second_run_changes_nothing opt items :
  let out := makeFilledTargetsStrictlyIncreasing opt
               (inferMissingByInterpolation opt items) in
  Forall (fun it => target it ≠ None) out ->
  Forall (fun it => forall t, target it = Some t -> fits64 (t + uniqueStep opt)) out ->
  makeFilledTargetsStrictlyIncreasing opt (inferMissingByInterpolation opt out) = out.
Proof.
  intros out Hset Hfit.
  rewrite (inferMissing_resolved opt out Hset).
  apply uniqueLoop_idempotent; [unfold uniqueStep; lia|done|done].
Qed.

(** ** Every target is set when there is an anchor *)





(** * The examples of the specification, as instances of the theorems *)

(** Anchors at 0 and 10 around three files: targets 2, 5, 7. *)
Lemma interpolation_example :
  (isSegment interpolationExample 1 3 = true
   /\ prevAnchorTime interpolationExample 1 = Some 0%Z
   /\ nextAnchorTime interpolationExample 3 = Some 10%Z
   /\ (Z.abs (10 - 0) <= anchorGapLimitDays defaultOptions * 86400)%Z
   /\ (Z.abs (10 - 0) >= 3 + 1)%Z
   /\ target <$> interpolationExample !! 1 = Some None
   /\ target <$> interpolationExample !! 2 = Some None
   /\ target <$> interpolationExample !! 3 = Some None)
  /\ target <$> inferMissingByInterpolation defaultOptions interpolationExample !! 1
     = Some (Some 2%Z)
  /\ target <$> inferMissingByInterpolation defaultOptions interpolationExample !! 2
     = Some (Some 5%Z)
  /\ target <$> inferMissingByInterpolation defaultOptions interpolationExample !! 3
     = Some (Some 7%Z)
  /\ targetReason <$> inferMissingByInterpolation defaultOptions interpolationExample !! 1
     = Some "interpolated between anchors".
Proof.
  pose proof (fun k it (Hk : 1 <= k <= 3)
                  (Hit : interpolationExample !! (1 + (k - 1)) = Some it) =>
    interpolation_between_anchors defaultOptions interpolationExample 1 3 eq_refl
      0 10 k it eq_refl eq_refl
      ltac:(unfold fits64; simpl; lia) ltac:(unfold fits64; simpl; lia)
      ltac:(unfold fits64; simpl; lia) ltac:(unfold fits64; simpl; lia)
      ltac:(simpl; lia) ltac:(simpl; lia) Hk Hit) as H.
  split; [repeat split; simpl; lia|].
  split; [exact (proj1 (proj1 (H 1 (missingItem "b") ltac:(lia) eq_refl) eq_refl))|].
  split; [exact (proj1 (proj1 (H 2 (missingItem "c") ltac:(lia) eq_refl) eq_refl))|].
  split; [exact (proj1 (proj1 (H 3 (missingItem "d") ltac:(lia) eq_refl) eq_refl))|].
  exact (proj1 (proj2 (proj1 (H 1 (missingItem "b") ltac:(lia) eq_refl) eq_refl))).
Defined.

(** C1 as stated fails for a member of the segment whose target the
    override has already set.  With the file-name fallback for anchors
    disabled, [IMG_b.jpg] has no anchor and stands between the anchors
    5_000_000 and 5_000_010 as the first of two members; the gap of 10
    is within the limit and at least [2 + 1].  The interpolated time
    would be 5_000_003; the record keeps its override target
    2_000_000, which does not lie between the anchors (and the
    uniqueness pass then moves it to 5_000_001). *)
Lemma interpolation_preset_counterexample :
  resolveTargets false (presetScanMetadata 5000010) scanFilenameTime
    noFallbackOptions presetScan
    = makeFilledTargetsStrictlyIncreasing noFallbackOptions
        (inferMissingByInterpolation noFallbackOptions
           (presetScanBeforeInference 5000010))
  /\ isSegment (presetScanBeforeInference 5000010) 1 2 = true
  /\ prevAnchorTime (presetScanBeforeInference 5000010) 1 = Some 5000000%Z
  /\ nextAnchorTime (presetScanBeforeInference 5000010) 2 = Some 5000010%Z
  /\ (Z.abs (5000010 - 5000000) <= anchorGapLimitDays noFallbackOptions * 86400)%Z
  /\ (Z.abs (5000010 - 5000000) >= 2 + 1)%Z
  /\ shot <$> presetScanBeforeInference 5000010 !! 1 = Some None
  /\ (5000000 + Z.quot ((5000010 - 5000000) * 1) (2 + 1) = 5000003)%Z
  /\ targets (inferMissingByInterpolation noFallbackOptions
                (presetScanBeforeInference 5000010))
     = [Some 5000000%Z; Some 2000000%Z; Some 5000006%Z; Some 5000010%Z]
  /\ target <$> inferMissingByInterpolation noFallbackOptions
                  (presetScanBeforeInference 5000010) !! 1
     ≠ Some (Some 5000003%Z)
  /\ ~ (5000000 < 2000000 < 5000010)%Z
  /\ targets (resolveTargets false (presetScanMetadata 5000010) scanFilenameTime
                noFallbackOptions presetScan)
     = [Some 5000000%Z; Some 5000001%Z; Some 5000006%Z; Some 5000010%Z].
Proof.
  repeat split; try (vm_compute; reflexivity); try (simpl; lia).
  vm_compute. intros [=].
Qed.

(** Anchors at 0 and 1_000_000_000 around four files, gap limit of 90
    days exceeded: the first two get 0, the last two 1_000_000_000. *)
Lemma nearest_fill_example :
  (isSegment largeGapExample 1 4 = true
   /\ prevAnchorTime largeGapExample 1 = Some 0%Z
   /\ nextAnchorTime largeGapExample 4 = Some 1000000000%Z
   /\ (anchorGapLimitDays defaultOptions * 86400 = 7776000)%Z
   /\ (Z.abs (1000000000 - 0) > anchorGapLimitDays defaultOptions * 86400)%Z
   /\ target <$> largeGapExample !! 1 = Some None
   /\ target <$> largeGapExample !! 2 = Some None
   /\ target <$> largeGapExample !! 3 = Some None
   /\ target <$> largeGapExample !! 4 = Some None)
  /\ target <$> inferMissingByInterpolation defaultOptions largeGapExample !! 1
     = Some (Some 0%Z)
  /\ target <$> inferMissingByInterpolation defaultOptions largeGapExample !! 2
     = Some (Some 0%Z)
  /\ target <$> inferMissingByInterpolation defaultOptions largeGapExample !! 3
     = Some (Some 1000000000%Z)
  /\ target <$> inferMissingByInterpolation defaultOptions largeGapExample !! 4
     = Some (Some 1000000000%Z).
Proof.
  pose proof (fun j it (Hj : j < 4) (Hit : largeGapExample !! (1 + j) = Some it) =>
    nearest_anchor_fill defaultOptions largeGapExample 1 4 eq_refl
      0 1000000000 j it eq_refl eq_refl
      ltac:(unfold fits64; simpl; lia) ltac:(unfold fits64; simpl; lia)
      ltac:(simpl; lia) Hj Hit) as H.
  split; [repeat split; simpl; lia|].
  split; [exact (proj1 (proj1 (H 0 (missingItem "b") ltac:(lia) eq_refl) eq_refl)
                   ltac:(simpl; lia))|].
  split; [exact (proj1 (proj1 (H 1 (missingItem "c") ltac:(lia) eq_refl) eq_refl)
                   ltac:(simpl; lia))|].
  split; [exact (proj1 (proj2 (proj1 (H 2 (missingItem "d") ltac:(lia) eq_refl) eq_refl))
                   ltac:(simpl; lia))|].
  exact (proj1 (proj2 (proj1 (H 3 (missingItem "e") ltac:(lia) eq_refl) eq_refl))
           ltac:(simpl; lia)).
Defined.

(** C6 as stated fails for a member of the segment whose target the
    override has already set.  With the file-name fallback for anchors
    disabled, [IMG_b.jpg] has no anchor and stands between the anchors
    5_000_000 and 1_005_000_000 at index 0 of a segment of two; the gap
    exceeds the limit of 90 days and [0 < 2 / 2], so the record would
    receive the earlier anchor's time; it keeps its override target
    2_000_000. *)
Lemma nearest_preset_counterexample :
  resolveTargets false (presetScanMetadata 1005000000) scanFilenameTime
    noFallbackOptions presetScan
    = makeFilledTargetsStrictlyIncreasing noFallbackOptions
        (inferMissingByInterpolation noFallbackOptions
           (presetScanBeforeInference 1005000000))
  /\ isSegment (presetScanBeforeInference 1005000000) 1 2 = true
  /\ prevAnchorTime (presetScanBeforeInference 1005000000) 1 = Some 5000000%Z
  /\ nextAnchorTime (presetScanBeforeInference 1005000000) 2 = Some 1005000000%Z
  /\ (Z.abs (1005000000 - 5000000) > anchorGapLimitDays noFallbackOptions * 86400)%Z
  /\ 0 < 2 / 2
  /\ shot <$> presetScanBeforeInference 1005000000 !! 1 = Some None
  /\ targets (inferMissingByInterpolation noFallbackOptions
                (presetScanBeforeInference 1005000000))
     = [Some 5000000%Z; Some 2000000%Z; Some 1005000000%Z; Some 1005000000%Z]
  /\ target <$> inferMissingByInterpolation noFallbackOptions
                  (presetScanBeforeInference 1005000000) !! 1
     ≠ Some (Some 5000000%Z).
Proof.
  repeat split; try (vm_compute; reflexivity); try (simpl; lia).
  vm_compute. intros [=].
Qed.

(** Anchors at 0 and 2 around five files, step 1: targets 1, 2, 3, 4, 5. *)
Lemma close_anchors_example :
  (isSegment closeAnchorsExample 1 5 = true
   /\ prevAnchorTime closeAnchorsExample 1 = Some 0%Z
   /\ nextAnchorTime closeAnchorsExample 5 = Some 2%Z
   /\ (Z.abs (2 - 0) < 5 + 1)%Z
   /\ target <$> closeAnchorsExample !! 1 = Some None
   /\ target <$> closeAnchorsExample !! 5 = Some None)
  /\ target <$> inferMissingByInterpolation defaultOptions closeAnchorsExample !! 1
     = Some (Some 1%Z)
  /\ target <$> inferMissingByInterpolation defaultOptions closeAnchorsExample !! 5
     = Some (Some 5%Z).
Proof.
  pose proof (fun k it (Hk : 1 <= k <= 5)
                  (Hit : closeAnchorsExample !! (1 + (k - 1)) = Some it) =>
    close_anchors_step_fill defaultOptions closeAnchorsExample 1 5 eq_refl
      0 2 k it eq_refl eq_refl
      ltac:(unfold fits64; simpl; lia) ltac:(unfold fits64; simpl; lia)
      ltac:(simpl; lia) ltac:(simpl; lia) Hk Hit) as H.
  split; [repeat split; simpl; lia|].
  split.
  - exact (proj1 (proj1 (H 1 (missingItem "b") ltac:(lia) eq_refl
                           ltac:(unfold fits64; simpl; lia)
                           ltac:(unfold fits64; simpl; lia)
                           ltac:(unfold fits64; simpl; lia)) eq_refl)).
  - exact (proj1 (proj1 (H 5 (missingItem "f") ltac:(lia) eq_refl
                           ltac:(unfold fits64; simpl; lia)
                           ltac:(unfold fits64; simpl; lia)
                           ltac:(unfold fits64; simpl; lia)) eq_refl)).
Defined.

(** C3 as stated fails for a zero gap: with both anchors at 100 the
    direction of the code is [+1], so the file between them is assigned
    101, while [sign(0) = 0] would have it assigned 100. *)
Lemma zero_gap_counterexample :
  isSegment zeroGapExample 1 1 = true
  /\ prevAnchorTime zeroGapExample 1 = Some 100%Z
  /\ nextAnchorTime zeroGapExample 1 = Some 100%Z
  /\ (Z.abs (100 - 100) <= anchorGapLimitDays defaultOptions * 86400)%Z
  /\ (Z.abs (100 - 100) < 1 + 1)%Z
  /\ target <$> zeroGapExample !! 1 = Some None
  /\ (100 + Z.sgn (100 - 100) * 1 * oneSideStepSeconds defaultOptions = 100)%Z
  /\ inferMissingByInterpolation defaultOptions zeroGapExample !! 1 =
       Some (setTarget (missingItem "b") 101 "anchors too close -> step-filled")
  /\ target <$> inferMissingByInterpolation defaultOptions zeroGapExample !! 1
     = Some (Some 101%Z)
  /\ target <$> inferMissingByInterpolation defaultOptions zeroGapExample !! 1
     ≠ Some (Some (100 + Z.sgn (100 - 100) * 1 * oneSideStepSeconds defaultOptions)%Z).
Proof.
  repeat split; try reflexivity; try (simpl; lia).
  vm_compute. intros [=].
Qed.

(** [Tprev = 100] before three files gives 101, 102, 103;
    [Tnext = 500] after three files gives 497, 498, 499. *)
Lemma one_sided_example :
  (isSegment onlyPrevExample 1 3 = true
   /\ prevAnchorTime onlyPrevExample 1 = Some 100%Z
   /\ nextAnchorTime onlyPrevExample 3 = None
   /\ isSegment onlyNextExample 0 3 = true
   /\ prevAnchorTime onlyNextExample 0 = None
   /\ nextAnchorTime onlyNextExample 2 = Some 500%Z
   /\ oneSideStep defaultOptions = true
   /\ targets onlyPrevExample = [Some 100%Z; None; None; None]
   /\ targets onlyNextExample = [None; None; None; Some 500%Z])
  /\ (target <$> inferMissingByInterpolation defaultOptions onlyPrevExample !! 1
        = Some (Some 101%Z)
      /\ target <$> inferMissingByInterpolation defaultOptions onlyPrevExample !! 2
        = Some (Some 102%Z)
      /\ target <$> inferMissingByInterpolation defaultOptions onlyPrevExample !! 3
        = Some (Some 103%Z))
  /\ (target <$> inferMissingByInterpolation defaultOptions onlyNextExample !! 0
        = Some (Some 497%Z)
      /\ target <$> inferMissingByInterpolation defaultOptions onlyNextExample !! 1
        = Some (Some 498%Z)
      /\ target <$> inferMissingByInterpolation defaultOptions onlyNextExample !! 2
        = Some (Some 499%Z)).
Proof.
  pose proof (fun k it (Hk : 1 <= k <= 3)
                  (Hit : onlyPrevExample !! (1 + (k - 1)) = Some it) =>
    proj1 (proj1 (one_sided_fill defaultOptions onlyPrevExample 1 3 eq_refl k it Hk Hit)
             100%Z eq_refl eq_refl) eq_refl) as Hprev.
  pose proof (fun k it (Hk : 1 <= k <= 3)
                  (Hit : onlyNextExample !! (0 + (k - 1)) = Some it) =>
    proj1 (proj1 (proj2 (one_sided_fill defaultOptions onlyNextExample 0 3 eq_refl
                           k it Hk Hit))
             500%Z eq_refl eq_refl) eq_refl) as Hnext.
  split; [repeat split|]. split; [|].
  - split; [|split].
    + exact (proj1 (Hprev 1 (missingItem "b") ltac:(lia) eq_refl
                      ltac:(unfold fits64; simpl; lia)
                      ltac:(unfold fits64; simpl; lia) eq_refl)).
    + exact (proj1 (Hprev 2 (missingItem "c") ltac:(lia) eq_refl
                      ltac:(unfold fits64; simpl; lia)
                      ltac:(unfold fits64; simpl; lia) eq_refl)).
    + exact (proj1 (Hprev 3 (missingItem "d") ltac:(lia) eq_refl
                      ltac:(unfold fits64; simpl; lia)
                      ltac:(unfold fits64; simpl; lia) eq_refl)).
  - split; [|split].
    + exact (proj1 (proj1 (Hnext 1 (missingItem "a") ltac:(lia) eq_refl
                             ltac:(unfold fits64; simpl; lia)
                             ltac:(unfold fits64; simpl; lia)) eq_refl)).
    + exact (proj1 (proj1 (Hnext 2 (missingItem "b") ltac:(lia) eq_refl
                             ltac:(unfold fits64; simpl; lia)
                             ltac:(unfold fits64; simpl; lia)) eq_refl)).
    + exact (proj1 (proj1 (Hnext 3 (missingItem "c") ltac:(lia) eq_refl
                             ltac:(unfold fits64; simpl; lia)
                             ltac:(unfold fits64; simpl; lia)) eq_refl)).
Defined.

(** C7 as stated fails when stepping is disabled: before the anchor at
    500 the first of three files is assigned 500, not
    [500 - (3 - 1 + 1) * step]. *)
Lemma only_next_no_step_counterexample :
  isSegment onlyNextExample 0 3 = true
  /\ prevAnchorTime onlyNextExample 0 = None
  /\ nextAnchorTime onlyNextExample 2 = Some 500%Z
  /\ (500 - (3 - 1 + 1) * oneSideStepSeconds noStepOptions = 497)%Z
  /\ targets (inferMissingByInterpolation noStepOptions onlyNextExample) =
       [Some 500%Z; Some 500%Z; Some 500%Z; Some 500%Z]
  /\ target <$> inferMissingByInterpolation noStepOptions onlyNextExample !! 0 ≠
       Some (Some (500 - (3 - 1 + 1) * oneSideStepSeconds noStepOptions)%Z).
Proof.
  repeat split; try reflexivity.
  vm_compute. intros [=].
Qed.




(** A Windows file created at 3_000_000 and written at 3_100_000 whose
    name parses to 2_000_000: both drifts exceed 7 days, the target
    becomes the file-name time and the default assignment keeps it. *)
Lemma filename_override_example :
  (enableFilenameOverrideForTarget defaultOptions = true
   /\ (filenameOverrideDays defaultOptions * 86400 = 604800)%Z
   /\ (Z.abs (3000000 - 2000000) > 604800)%Z
   /\ (Z.abs (3100000 - 2000000) > 604800)%Z)
  /\ applyFilenameOverrideForTarget true (fun _ => Some 2000000%Z) defaultOptions copiedFile
     = setTarget copiedFile 2000000 "filename override (fs create/write too far)"
  /\ assignShotAsTarget
       (applyFilenameOverrideForTarget true (fun _ => Some 2000000%Z) defaultOptions copiedFile)
     = applyFilenameOverrideForTarget true (fun _ => Some 2000000%Z) defaultOptions copiedFile.
Proof.
  pose proof (filename_override_rule true (fun _ => Some 2000000%Z) defaultOptions
                copiedFile 2000000 eq_refl eq_refl
                ltac:(unfold fits64; simpl; lia)) as H.
  split; [repeat split; simpl; lia|]. split.
  - exact (proj1 (proj1 H 3000000%Z 3100000%Z eq_refl eq_refl eq_refl
                    ltac:(unfold fits64; simpl; lia) ltac:(unfold fits64; simpl; lia))
             ltac:(simpl; lia)).
  - apply (proj2 (proj2 H)). reflexivity.
Defined.

(** A member of a segment whose target the override has already set
    keeps it through the gap inference. *)
Lemma preset_target_example :
  (presetExample !! 1 =
     Some (setTarget (missingItem "b") 777 "filename override (mtime too far)"))
  /\ inferMissingByInterpolation defaultOptions presetExample !! 1 =
       Some (setTarget (missingItem "b") 777 "filename override (mtime too far)").
Proof.
  split; [reflexivity|].
  apply (inference_keeps_set_targets defaultOptions presetExample 1 _ eq_refl).
  simpl. discriminate.
Defined.

(** The resolved sequence of the interpolation example is a fixed point
    of the two passes. *)
Lemma second_run_example :
  makeFilledTargetsStrictlyIncreasing defaultOptions
    (inferMissingByInterpolation defaultOptions interpolationExample)
  = [anchorItem "a" 0;
     setTarget (missingItem "b") 2 "interpolated between anchors";
     setTarget (missingItem "c") 5 "interpolated between anchors";
     setTarget (missingItem "d") 7 "interpolated between anchors";
     anchorItem "e" 10]
  /\ makeFilledTargetsStrictlyIncreasing defaultOptions
       (inferMissingByInterpolation defaultOptions
          (makeFilledTargetsStrictlyIncreasing defaultOptions
             (inferMissingByInterpolation defaultOptions interpolationExample)))
     = makeFilledTargetsStrictlyIncreasing defaultOptions
         (inferMissingByInterpolation defaultOptions interpolationExample).
Proof.
  assert (Hout :
    makeFilledTargetsStrictlyIncreasing defaultOptions
      (inferMissingByInterpolation defaultOptions interpolationExample)
    = [anchorItem "a" 0;
       setTarget (missingItem "b") 2 "interpolated between anchors";
       setTarget (missingItem "c") 5 "interpolated between anchors";
       setTarget (missingItem "d") 7 "interpolated between anchors";
       anchorItem "e" 10]) by (vm_compute; reflexivity).
  split; [exact Hout|].
  pose proof (second_run_changes_nothing defaultOptions interpolationExample) as H.
  cbv zeta in H. rewrite Hout in H |- *. apply H.
  - repeat (apply List.Forall_cons; [simpl; discriminate|]). apply List.Forall_nil.
  - repeat (apply List.Forall_cons;
              [simpl; intros t [= <-]; unfold fits64, uniqueStep; simpl; lia|]).
    apply List.Forall_nil.
Defined.


(** * Further properties of the pipeline *)

(** ** What the gap inference leaves alone *)

Lemma inferMissing_keeps_anchor opt items p it :
  items !! p = Some it -> shot it ≠ None ->
  inferMissingByInterpolation opt items !! p = Some it.
Proof.
  intros Hit Hs.
  assert (Ha : anchorAt items p = true).
  { unfold anchorAt, hasShot. rewrite Hit. by destruct (shot it). }
  apply (inferMissing_invariant opt items (fun _ its => its !! p = Some it)); try done.
  intros L m its Hp _ (_ & _ & Hrun & _). rewrite fillSegment_lookup.
  case_decide as Hin; [|done]. rewrite (Hrun p Hin) in Ha. done.
Qed.

(** X1. The gap inference changes nothing but targets and reasons: the
    vector keeps its length and order and every item its path, its file
    times, its shot time and the source of that; and an item that has a
    shot time is not changed at all. *)
Theorem inference_frame opt items :
  clearTarget <$> inferMissingByInterpolation opt items = clearTarget <$> items
  /\ (forall i it, items !! i = Some it -> shot it ≠ None ->
        inferMissingByInterpolation opt items !! i = Some it).
Proof. split; [apply inferMissing_clear|apply inferMissing_keeps_anchor]. Qed.

Lemma inference_frame_example :
  presetExample !! 3 = Some (anchorItem "d" 10)
  /\ inferMissingByInterpolation defaultOptions presetExample !! 3 =
       Some (anchorItem "d" 10).
Proof.
  split; [reflexivity|].
  apply (proj2 (inference_frame defaultOptions presetExample) 3 _ eq_refl).
  simpl. discriminate.
Defined.

Lemma inferMissing_no_anchor opt items :
  Forall (fun it => shot it = None) items ->
  inferMissingByInterpolation opt items = items.
Proof.
  intros Hall.
  assert (Hno : forall p, shotAt items p = None).
  { intros p. unfold shotAt. destruct (items !! p) as [it|] eqn:Hit; [|done].
    by apply (proj1 (Forall_lookup _ _) Hall p). }
  apply (inferMissing_invariant opt items (fun _ its => its = items)); try done.
  intros L m its -> _ _.
  apply list_eq. intros p. rewrite fillSegment_lookup.
  unfold prevAnchorTime, nextAnchorTime. rewrite !Hno.
  case_decide; [|done].
  destruct (_ <=? _)%nat, (_ <? _)%nat; simpl; by destruct (items !! p).
Qed.

(** X2. Without any anchor nothing can be inferred: a vector in which no
    item has a shot time leaves the gap inference as it entered it. *)
Theorem inference_without_anchors opt items :
  Forall (fun it => shot it = None) items ->
  inferMissingByInterpolation opt items = items.
Proof. apply inferMissing_no_anchor. Qed.

Lemma inference_without_anchors_example :
  inferMissingByInterpolation defaultOptions [missingItem "a"; missingItem "b"]
  = [missingItem "a"; missingItem "b"].
Proof.
  apply inference_without_anchors.
  repeat (apply List.Forall_cons; [reflexivity|]). apply List.Forall_nil.
Defined.

(** ** Interpolated times are distinct *)

Lemma quot_step g k k' d :
  (0 < d)%Z -> (d <= g)%Z -> (0 <= k < k')%Z ->
  (Z.quot (g * k) d < Z.quot (g * k') d)%Z.
Proof.
  intros Hd Hg Hk. rewrite !Z.quot_div_nonneg by nia.
  assert (g * k / d + 1 <= g * k' / d)%Z; [|lia].
  rewrite <-(Z.div_add (g * k) 1 d) by lia.
  apply Z.div_le_mono; nia.
Qed.

Lemma interpolation_member opt items L m tp tn k :
  isSegment items L m = true ->
  prevAnchorTime items L = Some tp ->
  nextAnchorTime items (L + m - 1) = Some tn ->
  fits64 tp -> fits64 tn ->
  fits64 (Z.abs (tn - tp) * Z.of_nat m) ->
  fits64 (anchorGapLimitDays opt * 86400) ->
  (Z.abs (tn - tp) <= anchorGapLimitDays opt * 86400)%Z ->
  (Z.abs (tn - tp) >= Z.of_nat m + 1)%Z ->
  1 <= k <= m ->
  inferMissingByInterpolation opt items !! (L + (k - 1)) =
    assignIfEmpty (tp + Z.quot ((tn - tp) * Z.of_nat k) (Z.of_nat m + 1))
      "interpolated between anchors" <$> items !! (L + (k - 1)).
Proof.
  intros Hseg Hp Hn Ftp Ftn Fgm Flim Hle Hge Hk.
  assert (Fabs : fits64 (Z.abs (tn - tp))) by (unfold fits64 in *; nia).
  pose proof (fits64_abs _ Fabs) as Fgap.
  destruct (quot_interpolation (tn - tp) (Z.of_nat k) (Z.of_nat m + 1))
    as [Hpos Hneg]; [lia|lia|].
  rewrite (regime_member opt items L m Hseg) by lia.
  rewrite Hp, Hn. unfold memberTarget.
  unfold mul64 at 1. rewrite (wrap64_fits _ Flim).
  unfold sub64. rewrite (wrap64_fits _ Fgap), (llabs_fits _ Fabs).
  destruct (_ <? _)%Z eqn:E1; [apply Z.ltb_lt in E1; lia|].
  destruct (Z.abs _ <? _)%Z eqn:E2; [apply Z.ltb_lt in E2; lia|].
  replace (1 + (k - 1)) with k by lia.
  unfold add64, div64, mul64.
  assert (Fgk : fits64 ((tn - tp) * Z.of_nat k))
    by (apply (fits64_mul_le _ _ (Z.of_nat m)); [done|lia]).
  rewrite (wrap64_fits _ Fgk).
  replace (Z.of_nat (m + 1)) with (Z.of_nat m + 1)%Z by lia.
  rewrite (wrap64_fits (Z.quot _ _)) by (unfold fits64 in *; lia).
  rewrite (wrap64_fits (tp + _)); [done|].
  apply (fits64_between tp tn); [done|done|].
  destruct (decide (0 < tn - tp)%Z); lia.
Qed.

(** X3. In the interpolation regime no two members of a segment get the
    same second: of two members whose targets were unset, the later one
    gets the strictly later time when the anchors ascend and the
    strictly earlier time when they descend. *)
Theorem interpolation_strictly_ordered opt items L m tp tn k k' it it' :
  isSegment items L m = true ->
  prevAnchorTime items L = Some tp ->
  nextAnchorTime items (L + m - 1) = Some tn ->
  fits64 tp -> fits64 tn ->
  fits64 (Z.abs (tn - tp) * Z.of_nat m) ->
  fits64 (anchorGapLimitDays opt * 86400) ->
  (Z.abs (tn - tp) <= anchorGapLimitDays opt * 86400)%Z ->
  (Z.abs (tn - tp) >= Z.of_nat m + 1)%Z ->
  1 <= k -> k < k' -> k' <= m ->
  items !! (L + (k - 1)) = Some it -> target it = None ->
  items !! (L + (k' - 1)) = Some it' -> target it' = None ->
  exists t t',
    target <$> inferMissingByInterpolation opt items !! (L + (k - 1)) = Some (Some t)
    /\ target <$> inferMissingByInterpolation opt items !! (L + (k' - 1)) = Some (Some t')
    /\ ((tp < tn)%Z -> (t < t')%Z)
    /\ ((tn < tp)%Z -> (t' < t)%Z).
Proof.
  intros Hseg Hp Hn Ftp Ftn Fgm Flim Hle Hge Hk1 Hkk Hk2 Hit Ht Hit' Ht'.
  exists (tp + Z.quot ((tn - tp) * Z.of_nat k) (Z.of_nat m + 1))%Z,
         (tp + Z.quot ((tn - tp) * Z.of_nat k') (Z.of_nat m + 1))%Z.
  rewrite (interpolation_member opt items L m tp tn k) by (try done; lia).
  rewrite (interpolation_member opt items L m tp tn k') by (try done; lia).
  rewrite Hit, Hit'. simpl. unfold assignIfEmpty. rewrite Ht, Ht'. simpl.
  split; [done|]. split; [done|]. split; intros Hdir.
  - pose proof (quot_step (tn - tp) (Z.of_nat k) (Z.of_nat k') (Z.of_nat m + 1)
                  ltac:(lia) ltac:(lia) ltac:(lia)). lia.
  - pose proof (quot_step (tp - tn) (Z.of_nat k) (Z.of_nat k') (Z.of_nat m + 1)
                  ltac:(lia) ltac:(lia) ltac:(lia)) as H.
    replace ((tn - tp) * Z.of_nat k)%Z with (- ((tp - tn) * Z.of_nat k))%Z by lia.
    replace ((tn - tp) * Z.of_nat k')%Z with (- ((tp - tn) * Z.of_nat k'))%Z by lia.
    rewrite !Z.quot_opp_l by lia. lia.
Qed.

Lemma interpolation_strictly_ordered_example :
  exists t t',
    target <$> inferMissingByInterpolation defaultOptions interpolationExample !! 1
      = Some (Some t)
    /\ target <$> inferMissingByInterpolation defaultOptions interpolationExample !! 3
      = Some (Some t')
    /\ ((0 < 10)%Z -> (t < t')%Z)
    /\ ((10 < 0)%Z -> (t' < t)%Z).
Proof.
  apply (interpolation_strictly_ordered defaultOptions interpolationExample 1 3
           0%Z 10%Z 1 3 (missingItem "b") (missingItem "d"));
    try reflexivity; try lia; unfold fits64; simpl; lia.
Defined.

(** ** What the uniqueness pass guarantees *)

(** X4. After the uniqueness pass every filled item (no shot time, a
    target) lies strictly above the final target of the last resolved
    item before it, provided the bump did not overflow. *)
Theorem unique_strictly_above opt items i it t p :
  let out := makeFilledTargetsStrictlyIncreasing opt items in
  out !! i = Some it ->
  shot it = None -> target it = Some t ->
  lastTarget None (take i out) = Some p ->
  fits64 (p + uniqueStep opt) ->
  (p < t)%Z.
Proof.
  intros out Hout Hs Ht Hp Hfit.
  unfold makeFilledTargetsStrictlyIncreasing in out. subst out.
  unfold uniqueStep in *.
  assert (Hlen : i < length items).
  { apply lookup_lt_Some in Hout.
    assert (Hl := f_equal length
                    (uniqueLoop_clear (Z.max 1 (oneSideStepSeconds opt)) None items)).
    rewrite !length_fmap in Hl. lia. }
  destruct (lookup_lt_is_Some_2 items i Hlen) as [it0 Hit0].
  pose proof (uniqueLoop_lookup (Z.max 1 (oneSideStepSeconds opt)) None items i it0 Hit0)
    as Hlk.
  rewrite Hout, Hp in Hlk. injection Hlk as Hlk.
  destruct (target it0) as [t0|] eqn:Ht0; [|congruence].
  unfold bumpItem in Hlk.
  destruct (negb (hasShot it0) && (t0 <=? p)%Z) eqn:Hb.
  - subst it. simpl in Ht. injection Ht as <-.
    unfold add64. rewrite (wrap64_fits _ Hfit). lia.
  - subst it. apply andb_false_iff in Hb as [Hb|Hb].
    + unfold hasShot in Hb. by rewrite Hs in Hb.
    + apply Z.leb_gt in Hb. congruence.
Qed.

Lemma unique_strictly_above_example :
  makeFilledTargetsStrictlyIncreasing defaultOptions bumpExample !! 1 =
    Some (setTarget (missingItem "b") 101
            "interpolated between anchors + unique(+1s steps)")
  /\ (100 < 101)%Z.
Proof.
  split; [reflexivity|].
  apply (unique_strictly_above defaultOptions bumpExample 1
           (setTarget (missingItem "b") 101
              "interpolated between anchors + unique(+1s steps)") 101%Z 100%Z);
    try reflexivity. unfold fits64, uniqueStep; simpl; lia.
Defined.

(** X5. The uniqueness pass changes nothing but targets and reasons; it
    leaves an item without target without target, and it never lowers a
    target (provided the bump did not overflow). *)
Theorem unique_never_lowers opt items :
  let out := makeFilledTargetsStrictlyIncreasing opt items in
  clearTarget <$> out = clearTarget <$> items
  /\ (forall i it, items !! i = Some it -> target it = None -> out !! i = Some it)
  /\ (forall i it t, items !! i = Some it -> target it = Some t ->
        (forall p, lastTarget None (take i out) = Some p -> fits64 (p + uniqueStep opt)) ->
        exists it' t', out !! i = Some it' /\ target it' = Some t' /\ (t <= t')%Z).
Proof.
  intros out. split; [apply uniqueLoop_clear|]. split.
  - intros i it Hit Ht.
    unfold out, makeFilledTargetsStrictlyIncreasing.
    by rewrite (uniqueLoop_lookup _ _ _ _ _ Hit), Ht.
  - intros i it t Hit Ht Hfit.
    unfold makeFilledTargetsStrictlyIncreasing in out. subst out.
    unfold uniqueStep in *.
    pose proof (uniqueLoop_lookup (Z.max 1 (oneSideStepSeconds opt)) None items i it Hit)
      as Hlk.
    rewrite Ht in Hlk. unfold bumpItem in Hlk.
    destruct (lastTarget None (take i _)) as [p|] eqn:Hp.
    + destruct (negb (hasShot it) && (t <=? p)%Z) eqn:Hb.
      * eexists _, _. split; [exact Hlk|]. split; [done|].
        apply andb_true_iff in Hb as [_ Hb%Z.leb_le].
        unfold add64. rewrite (wrap64_fits _ (Hfit p eq_refl)). lia.
      * exists it, t. split; [done|]. split; [done|lia].
    + exists it, t. split; [done|]. split; [done|lia].
Qed.

Lemma unique_never_lowers_example :
  exists it' t',
    makeFilledTargetsStrictlyIncreasing defaultOptions bumpExample !! 1 = Some it'
    /\ target it' = Some t' /\ (99 <= t')%Z.
Proof.
  apply (proj2 (proj2 (unique_never_lowers defaultOptions bumpExample)) 1
           (setTarget (missingItem "b") 99 "interpolated between anchors") 99%Z
           eq_refl eq_refl).
  intros p [= <-]. unfold fits64, uniqueStep; simpl; lia.
Defined.

Lemma uniqueLoop_increasing step prev items :
  (forall i it t p, items !! i = Some it -> shot it = None -> target it = Some t ->
     lastTarget prev (take i items) = Some p -> (p < t)%Z) ->
  uniqueLoop step prev items = items.
Proof.
  revert prev. induction items as [|it rest IH]; intros prev Hinc; [done|].
  simpl. destruct (target it) as [t|] eqn:Ht.
  - assert (Hsame : bumpItem step prev it t = it).
    { unfold bumpItem. destruct prev as [p|]; [|done].
      destruct (negb (hasShot it) && (t <=? p)%Z) eqn:Hb; [|done].
      apply andb_true_iff in Hb as [Hs Hle%Z.leb_le].
      assert (shot it = None) as Hs'.
      { unfold hasShot in Hs. by destruct (shot it). }
      pose proof (Hinc 0 it t p eq_refl Hs' Ht eq_refl). lia. }
    rewrite Hsame. f_equal. rewrite Ht. apply IH.
    intros i it' t' p Hit' Hs' Ht' Hp.
    apply (Hinc (S i) it' t' p Hit' Hs' Ht'). simpl. by rewrite Ht.
  - f_equal. apply IH.
    intros i it' t' p Hit' Hs' Ht' Hp.
    apply (Hinc (S i) it' t' p Hit' Hs' Ht'). simpl. by rewrite Ht.
Qed.

(** X6. The uniqueness pass is the identity on a vector that needs no
    bump: if every filled item already lies strictly above the target of
    the last resolved item before it, nothing changes, neither target
    nor reason.  In particular a vector of anchors only is left alone. *)
Theorem unique_identity_when_increasing opt items :
  (forall i it t p, items !! i = Some it -> shot it = None -> target it = Some t ->
     lastTarget None (take i items) = Some p -> (p < t)%Z) ->
  makeFilledTargetsStrictlyIncreasing opt items = items.
Proof. apply uniqueLoop_increasing. Qed.

Lemma unique_identity_example :
  makeFilledTargetsStrictlyIncreasing defaultOptions
    (inferMissingByInterpolation defaultOptions onlyPrevExample)
  = inferMissingByInterpolation defaultOptions onlyPrevExample.
Proof.
  apply unique_identity_when_increasing.
  assert (Hv : inferMissingByInterpolation defaultOptions onlyPrevExample =
    [anchorItem "a" 100;
     setTarget (missingItem "b") 101 "only prev anchor -> filled +1s steps";
     setTarget (missingItem "c") 102 "only prev anchor -> filled +1s steps";
     setTarget (missingItem "d") 103 "only prev anchor -> filled +1s steps"])
    by (vm_compute; reflexivity).
  rewrite Hv. intros i it t p Hit Hs Ht Hp.
  destruct i as [|[|[|[|i]]]]; simpl in Hit; simplify_eq; simpl in *; simplify_eq; lia.
Defined.

(** ** The pipeline as a whole *)

Section PipelineFacts.

Variable win32 : bool.
Variable readMeta : string -> option Z.
Variable parse : string -> option Z.
Variable opt : Options.

Lemma Sorted_fmap_inv {A B} (R1 : relation A) (R2 : relation B) (f : A -> B) l :
  (forall x y, R2 (f x) (f y) -> R1 x y) ->
  Sorted R2 (f <$> l) -> Sorted R1 l.
Proof.
  intros Hf. induction l as [|x l IH]; [constructor|].
  simpl. intros Hs. apply Sorted_inv in Hs as [Hs Hhd].
  constructor; [by apply IH|].
  destruct l as [|y l]; [constructor|].
  simpl in Hhd. apply HdRel_inv in Hhd. constructor. by apply Hf.
Qed.

(** X7. The pipeline neither loses, duplicates nor reorders files.
    After the sort only targets and reasons change: the result, targets
    and reasons cleared, is the sorted vector of the scanned items with
    their shot times; its files are a permutation of the scanned files;
    and it is still in the order of the sort (modification time, then
    path). *)
Theorem pipeline_keeps_files_and_order items :
  let out := resolveTargets win32 readMeta parse opt items in
  clearTarget <$> out =
    clearTarget <$> sortItems (fillShotTime readMeta parse opt <$> items)
  /\ fileOf <$> out ≡ₚ fileOf <$> items
  /\ Sorted itemOrder out.
Proof.
  intros out. pose proof (resolveTargets_clear win32 readMeta parse opt items) as Hc. fold out in Hc.
  split; [done|]. split.
  - assert (Hf : forall l : list Item, fileOf <$> l = fileOf <$> (clearTarget <$> l)).
    { intros l. by rewrite <-list_fmap_compose. }
    rewrite (Hf out), Hc, <-Hf.
    rewrite (proj1 (sortItems_sorted _)).
    rewrite <-list_fmap_compose.
    assert (Heq : (fileOf ∘ fillShotTime readMeta parse opt) <$> items
                  = fileOf <$> items).
    { apply list_fmap_ext. intros i it _. simpl.
      unfold fillShotTime. repeat case_match; done. }
    by rewrite Heq.
  - apply (Sorted_fmap_inv itemOrder itemOrder clearTarget); [done|].
    rewrite Hc. apply (Sorted_fmap clearTarget itemOrder itemOrder); [done|].
    apply sortItems_sorted.
Qed.

Lemma override_cases it :
  applyFilenameOverrideForTarget win32 parse opt it = it
  \/ (enableFilenameOverrideForTarget opt = true /\
      exists F r, parse (path it) = Some F /\
        applyFilenameOverrideForTarget win32 parse opt it = setTarget it F r).
Proof.
  unfold applyFilenameOverrideForTarget.
  destruct (enableFilenameOverrideForTarget opt); simpl; [|by left].
  destruct (parse (path it)) as [F|]; [|by left].
  repeat case_match; try (by left); right; eauto.
Qed.

Lemma fillShotTime_target it :
  target (fillShotTime readMeta parse opt it) = target it.
Proof. unfold fillShotTime. repeat case_match; done. Qed.

Lemma fillShotTime_path it :
  path (fillShotTime readMeta parse opt it) = path it.
Proof. unfold fillShotTime. repeat case_match; done. Qed.

(** The item at index [i] of the result, when it has a shot time, is the
    item that the default assignment left at that index. *)
Lemma resolveTargets_anchor_lookup items i o :
  resolveTargets win32 readMeta parse opt items !! i = Some o ->
  shot o ≠ None ->
  exists it2,
    sortItems (fillShotTime readMeta parse opt <$> items) !! i = Some it2 /\
    o = assignShotAsTarget
          (if enableFilenameOverrideForTarget opt
           then applyFilenameOverrideForTarget win32 parse opt it2 else it2).
Proof.
  intros Ho Hs.
  pose proof (resolveTargets_clear win32 readMeta parse opt items) as Hc.
  assert (Hi : (clearTarget <$> resolveTargets win32 readMeta parse opt items) !! i
               = Some (clearTarget o)) by (by rewrite list_lookup_fmap, Ho).
  rewrite Hc, list_lookup_fmap in Hi.
  destruct (sortItems _ !! i) as [it2|] eqn:Hit2; [|done].
  exists it2. split; [done|].
  set (it3 := if enableFilenameOverrideForTarget opt
              then applyFilenameOverrideForTarget win32 parse opt it2 else it2).
  assert (H4 : (assignShotAsTarget <$>
                 (if enableFilenameOverrideForTarget opt
                  then applyFilenameOverrideForTarget win32 parse opt <$>
                         sortItems (fillShotTime readMeta parse opt <$> items)
                  else sortItems (fillShotTime readMeta parse opt <$> items))) !! i
               = Some (assignShotAsTarget it3)).
  { rewrite list_lookup_fmap. unfold it3.
    destruct (enableFilenameOverrideForTarget opt);
      [rewrite list_lookup_fmap|]; by rewrite Hit2. }
  assert (Hs4 : shot (assignShotAsTarget it3) ≠ None).
  { change (Some (clearTarget it2) = Some (clearTarget o)) in Hi.
    apply (inj Some) in Hi. symmetry in Hi.
    rewrite assignShotAsTarget_shot. unfold it3.
    destruct (enableFilenameOverrideForTarget opt); [rewrite override_shot|];
      apply clearTarget_fields in Hi; destruct Hi as (_ & _ & _ & _ & <- & _); done. }
  pose proof (inferMissing_keeps_anchor opt _ _ _ H4 Hs4) as H5.
  unfold resolveTargets, makeFilledTargetsStrictlyIncreasing in Ho.
  rewrite (uniqueLoop_lookup _ _ _ _ _ H5) in Ho.
  injection Ho as <-.
  destruct (target (assignShotAsTarget it3)); [|done].
  by rewrite bumpItem_anchor.
Qed.

(** X8. Where the target of an anchor comes from.  For scanned items
    (no target yet), every item of the result that has a shot time has
    that shot time as its target, with the reason naming the source of
    the shot time, unless the file-name override is enabled and set the
    target to the time parsed from the file name.  With the override
    disabled the target of an anchor is its shot time. *)
Theorem anchor_target_origin items i o s :
  Forall (fun it => target it = None) items ->
  resolveTargets win32 readMeta parse opt items !! i = Some o ->
  shot o = Some s ->
  (target o = Some s /\
   targetReason o = match shotSource o with
                    | Filename => "shot from filename"
                    | _ => "shot from metadata"
                    end)
  \/ (enableFilenameOverrideForTarget opt = true /\
      exists F, parse (path o) = Some F /\ target o = Some F).
Proof.
  intros Hfresh Ho Hs.
  destruct (resolveTargets_anchor_lookup items i o Ho) as (it2 & Hit2 & ->);
    [by rewrite Hs|].
  assert (Ht2 : target it2 = None).
  { apply list_elem_of_lookup_2 in Hit2.
    rewrite (proj1 (sortItems_sorted _)) in Hit2.
    apply list_elem_of_fmap in Hit2 as (it0 & -> & Hin).
    rewrite fillShotTime_target.
    by apply (proj1 (Forall_forall _ _) Hfresh). }
  assert (Hplain : forall it, target it = None -> shot (assignShotAsTarget it) = Some s ->
            target (assignShotAsTarget it) = Some s /\
            targetReason (assignShotAsTarget it) =
              match shotSource (assignShotAsTarget it) with
              | Filename => "shot from filename"
              | _ => "shot from metadata"
              end).
  { intros it Ht. unfold assignShotAsTarget. rewrite Ht.
    destruct (shot it) as [s'|] eqn:Hs'; simpl; [|by rewrite Hs'].
    rewrite Hs'. intros [= ->]. by destruct (shotSource it). }
  destruct (enableFilenameOverrideForTarget opt) eqn:Hen; [|left; by apply Hplain].
  destruct (override_cases it2) as [Hsame|(_ & F & r & HF & Hov)].
  - rewrite Hsame in *. left. by apply Hplain.
  - right. split; [done|]. exists F. rewrite Hov.
    rewrite assignShotAsTarget_set by done. done.
Qed.

Lemma resolveTargets_origin items i o :
  resolveTargets win32 readMeta parse opt items !! i = Some o ->
  exists it0, it0 ∈ items /\
    clearTarget o = clearTarget (fillShotTime readMeta parse opt it0).
Proof.
  intros Ho.
  assert (Hi : (clearTarget <$> resolveTargets win32 readMeta parse opt items) !! i
               = Some (clearTarget o)) by (by rewrite list_lookup_fmap, Ho).
  rewrite resolveTargets_clear, list_lookup_fmap in Hi.
  destruct (sortItems _ !! i) as [it2|] eqn:Hit2; [|done].
  change (Some (clearTarget it2) = Some (clearTarget o)) in Hi.
  apply (inj Some) in Hi.
  apply list_elem_of_lookup_2 in Hit2.
  rewrite (proj1 (sortItems_sorted _)) in Hit2.
  apply list_elem_of_fmap in Hit2 as (it0 & -> & Hin).
  by exists it0.
Qed.

Lemma resolveTargets_anchor_has_target items :
  Forall (fun o => shot o ≠ None -> target o ≠ None)
    (resolveTargets win32 readMeta parse opt items).
Proof.
  apply Forall_lookup. intros i o Ho Hs.
  destruct (resolveTargets_anchor_lookup items i o Ho Hs) as (it2 & _ & ->).
  apply assignShotAsTarget_target. by rewrite assignShotAsTarget_shot in Hs.
Qed.

Lemma countAnchors_cons it l :
  countAnchors (it :: l) = (if hasShot it then 1 else 0) + countAnchors l.
Proof.
  unfold countAnchors. simpl.
  assert (H : forall (l : list Item) a,
            foldl (fun anchors it => if hasShot it then S anchors else anchors) a l
            = a + foldl (fun anchors it => if hasShot it then S anchors else anchors) 0 l).
  { clear. induction l as [|x l IH]; intros a; simpl; [lia|].
    rewrite (IH (if hasShot x then S a else a)), (IH (if hasShot x then 1 else 0)).
    destruct (hasShot x); lia. }
  apply H.
Qed.

Lemma countAnchors_perm l l' : l ≡ₚ l' -> countAnchors l = countAnchors l'.
Proof.
  induction 1 as [|x l l' _ IH|x y l|l l' l'' _ IH1 _ IH2];
    rewrite ?countAnchors_cons; lia.
Qed.

Lemma countAnchors_clear l : countAnchors (clearTarget <$> l) = countAnchors l.
Proof.
  induction l as [|x l IH]; [done|].
  rewrite fmap_cons, !countAnchors_cons, IH. done.
Qed.

Lemma report_fold l r0 :
  Forall (fun it => shot it ≠ None -> target it ≠ None) l ->
  processed (foldl reportStep r0 l) = processed r0 + length l
  /\ filledCount (foldl reportStep r0 l) + skippedNoTarget (foldl reportStep r0 l)
     + countAnchors l
     = filledCount r0 + skippedNoTarget r0 + length l.
Proof.
  revert r0. induction l as [|it l IH]; intros r0 Hall; simpl; [split; [lia|done]|].
  inversion_clear Hall as [|? ? Hit Hl].
  destruct (IH (reportStep r0 it) Hl) as [Hp Hc].
  rewrite Hp, countAnchors_cons.
  unfold reportStep in *. unfold hasShot in *.
  destruct (target it) eqn:Ht; simpl in *.
  - destruct (shot it); simpl in *; split; lia.
  - destruct (shot it) eqn:Hs; [exfalso; by apply Hit|]. simpl in *. split; lia.
Qed.

(** X9. The counters of [main] add up: every file is processed once, and
    every file is counted exactly once as an anchor, as filled (no shot
    time, target inferred or overridden) or as skipped (no target). *)
Theorem report_accounts_for_every_file items :
  let anchors := countAnchors (fillShotTime readMeta parse opt <$> items) in
  let r := report (resolveTargets win32 readMeta parse opt items) in
  processed r = length items
  /\ anchors + filledCount r + skippedNoTarget r = length items.
Proof.
  intros anchors r.
  destruct (report_fold (resolveTargets win32 readMeta parse opt items)
              {| processed := 0; filledCount := 0; skippedNoTarget := 0 |}
              (resolveTargets_anchor_has_target items)) as [Hp Hc].
  fold (report (resolveTargets win32 readMeta parse opt items)) in Hp, Hc.
  fold r in Hp, Hc. simpl in Hp, Hc.
  assert (Hlen : length (resolveTargets win32 readMeta parse opt items) = length items).
  { rewrite <-(length_fmap clearTarget), resolveTargets_clear, length_fmap.
    rewrite (proj1 (sortItems_sorted _)). by rewrite length_fmap. }
  assert (Ha : countAnchors (resolveTargets win32 readMeta parse opt items) = anchors).
  { rewrite <-countAnchors_clear, resolveTargets_clear, countAnchors_clear.
    apply countAnchors_perm, sortItems_sorted. }
  rewrite Hlen, Ha in *. lia.
Qed.

(** X10. EXIF is written only where the metadata gave no shot time: for
    an item of the result, [shouldWriteExif] holds exactly when writing
    is enabled and the metadata reader found no usable shot time in the
    file. *)
Theorem exif_written_only_without_metadata items i o (writeExifIfMissing : bool) :
  resolveTargets win32 readMeta parse opt items !! i = Some o ->
  shouldWriteExif writeExifIfMissing o =
  writeExifIfMissing && bool_decide (readMeta (path o) = None).
Proof.
  intros Ho. destruct (resolveTargets_origin items i o Ho) as (it0 & _ & Hc).
  apply clearTarget_fields in Hc as (Hpath & _ & _ & _ & _ & Hsrc).
  symmetry in Hpath, Hsrc.
  unfold shouldWriteExif. rewrite <-Hsrc, <-Hpath, fillShotTime_path.
  f_equal. unfold fillShotTime.
  destruct (readMeta (path it0)); simpl; [done|].
  repeat case_match; done.
Qed.

Lemma fmap_id_on (f : Item -> Item) (l : list Item) :
  Forall (fun it => f it = it) l -> f <$> l = l.
Proof.
  induction 1 as [|x l Hx _ IH]; [done|]. by rewrite fmap_cons, Hx, IH.
Qed.

(** X11. Without information nothing is resolved: when no scanned file
    has a usable shot time in its metadata nor a time in its name, the
    result is the sorted scan with every target unset, all of it to be
    reported as skipped. *)
Theorem no_information_no_targets items :
  Forall (fun it => readMeta (path it) = None /\ parse (path it) = None /\
                    target it = None) items ->
  let out := resolveTargets win32 readMeta parse opt items in
  out = sortItems (fillShotTime readMeta parse opt <$> items)
  /\ Forall (fun o => target o = None /\ shot o = None) out.
Proof.
  intros Hno out.
  set (s := sortItems (fillShotTime readMeta parse opt <$> items)).
  assert (Hs : Forall (fun it => parse (path it) = None /\ target it = None /\
                                 shot it = None) s).
  { apply Forall_forall. intros it Hin. unfold s in Hin.
    rewrite (proj1 (sortItems_sorted _)) in Hin.
    apply list_elem_of_fmap in Hin as (it0 & -> & Hin0).
    destruct (proj1 (Forall_forall _ _) Hno it0 Hin0) as (Hm & Hp & Ht).
    rewrite fillShotTime_path, fillShotTime_target.
    repeat split; try done.
    unfold fillShotTime. rewrite Hm, Hp. by destruct (enableFilenameFallbackForShot opt). }
  assert (Hout : out = s).
  { unfold out, resolveTargets. fold s.
    assert (H3 : (if enableFilenameOverrideForTarget opt
                  then applyFilenameOverrideForTarget win32 parse opt <$> s else s) = s).
    { destruct (enableFilenameOverrideForTarget opt) eqn:Hen; [|done].
      apply fmap_id_on. eapply Forall_impl; [exact Hs|].
      intros it (Hp & _ & _). unfold applyFilenameOverrideForTarget.
      by rewrite Hen, Hp. }
    rewrite H3.
    assert (H4 : assignShotAsTarget <$> s = s).
    { apply fmap_id_on. eapply Forall_impl; [exact Hs|].
      intros it (_ & Ht & Hsh). unfold assignShotAsTarget. by rewrite Ht, Hsh. }
    rewrite H4.
    rewrite inferMissing_no_anchor by (eapply Forall_impl; [exact Hs|]; by intros it (_ & _ & ?)).
    apply uniqueLoop_increasing.
    intros i it t p Hit _ Ht _.
    destruct (proj1 (Forall_lookup _ _) Hs i it Hit) as (_ & Ht' & _). congruence. }
  split; [done|]. rewrite Hout.
  eapply Forall_impl; [exact Hs|]. by intros it (_ & ? & ?).
Qed.

End PipelineFacts.

Lemma anchor_target_origin_example :
  resolveTargets false scanMetadata scanFilenameTime defaultOptions scanExample !! 0
    = Some scanAnchorResolved
  /\ ((target scanAnchorResolved = Some 5000000%Z /\
       targetReason scanAnchorResolved = "shot from metadata")
      \/ (enableFilenameOverrideForTarget defaultOptions = true /\
          exists F, scanFilenameTime (path scanAnchorResolved) = Some F /\
                    target scanAnchorResolved = Some F)).
Proof.
  assert (Ho : resolveTargets false scanMetadata scanFilenameTime defaultOptions
                 scanExample !! 0 = Some scanAnchorResolved)
    by (vm_compute; reflexivity).
  split; [exact Ho|].
  apply (anchor_target_origin false scanMetadata scanFilenameTime defaultOptions
           scanExample 0 scanAnchorResolved 5000000%Z).
  - repeat (apply List.Forall_cons; [reflexivity|]). apply List.Forall_nil.
  - exact Ho.
  - reflexivity.
Defined.

Lemma exif_written_example :
  resolveTargets false scanMetadata scanFilenameTime defaultOptions scanExample !! 0
    = Some scanAnchorResolved
  /\ shouldWriteExif true scanAnchorResolved =
       true && bool_decide (scanMetadata (path scanAnchorResolved) = None).
Proof.
  assert (Ho : resolveTargets false scanMetadata scanFilenameTime defaultOptions
                 scanExample !! 0 = Some scanAnchorResolved)
    by (vm_compute; reflexivity).
  split; [exact Ho|].
  exact (exif_written_only_without_metadata false scanMetadata scanFilenameTime
           defaultOptions scanExample 0 scanAnchorResolved true Ho).
Defined.

Lemma no_information_example :
  resolveTargets false (fun _ => None) (fun _ => None) defaultOptions blankScan
  = sortItems (fillShotTime (fun _ => None) (fun _ => None) defaultOptions <$> blankScan)
  /\ Forall (fun o => target o = None /\ shot o = None)
       (resolveTargets false (fun _ => None) (fun _ => None) defaultOptions blankScan).
Proof.
  apply (no_information_no_targets false (fun _ => None) (fun _ => None)
           defaultOptions blankScan).
  repeat (apply List.Forall_cons; [repeat split|]). apply List.Forall_nil.
Defined.

(** * Windows file times *)

Lemma land_low32 x : Z.land x 4294967295 = (x mod 2 ^ 32)%Z.
Proof. change 4294967295%Z with (Z.ones 32). by rewrite Z.land_ones. Qed.

Lemma setFileTimesWindows_ft_quad t :
  (0 <= t + SEC_TO_UNIX_EPOCH)%Z ->
  ((t + SEC_TO_UNIX_EPOCH) * WINDOWS_TICK < 2 ^ 63)%Z ->
  quadPart (setFileTimesWindows_ft t) = ((t + SEC_TO_UNIX_EPOCH) * WINDOWS_TICK)%Z.
Proof.
  intros Hlo Hhi. unfold setFileTimesWindows_ft, quadPart, mul64, add64. simpl.
  unfold WINDOWS_TICK, SEC_TO_UNIX_EPOCH in *.
  rewrite (wrap64_fits (t + _)) by (unfold fits64; lia).
  rewrite (wrap64_fits (_ * _)) by (unfold fits64; lia).
  set (x := ((t + 11644473600) * 10000000)%Z) in *.
  rewrite !land_low32, Z.shiftr_div_pow2 by lia.
  rewrite (Z.mod_small (x / 2 ^ 32)).
  - pose proof (Z.div_mod x (2 ^ 32) ltac:(lia)). lia.
  - split; [apply Z.div_pos; lia|]. apply Z.div_lt_upper_bound; lia.
Qed.

(** X12. Reading back a file time that was written.  For a target time
    [t] not before 1601 and small enough for the tick count to fit 63
    bits, the [FILETIME] that [setFileTimesWindows] writes has two
    32-bit halves, and [filetimeToTimeT] reads it back as [t] when [t]
    is not before 1970 and as "no time" when it is. *)
Theorem filetime_write_read t :
  (- SEC_TO_UNIX_EPOCH <= t)%Z ->
  ((t + SEC_TO_UNIX_EPOCH) * WINDOWS_TICK < 2 ^ 63)%Z ->
  let ft := setFileTimesWindows_ft t in
  (0 <= dwLowDateTime ft < 2 ^ 32)%Z
  /\ (0 <= dwHighDateTime ft < 2 ^ 32)%Z
  /\ filetimeToTimeT ft = if (t <? 0)%Z then None else Some t.
Proof.
  intros Hlo Hhi ft.
  split; [|split].
  - unfold ft, setFileTimesWindows_ft. simpl. rewrite land_low32.
    apply Z.mod_pos_bound. lia.
  - unfold ft, setFileTimesWindows_ft. simpl. rewrite land_low32.
    apply Z.mod_pos_bound. lia.
  - unfold filetimeToTimeT. fold ft.
    unfold ft. rewrite setFileTimesWindows_ft_quad by lia.
    unfold WINDOWS_TICK, SEC_TO_UNIX_EPOCH in *.
    rewrite Z.div_mul by lia.
    rewrite (wrap64_fits (t + _)) by (unfold fits64; lia).
    unfold sub64. rewrite wrap64_fits by (unfold fits64; lia).
    replace (t + 11644473600 - 11644473600)%Z with t by lia. done.
Qed.

Lemma filetime_write_read_example :
  ((- SEC_TO_UNIX_EPOCH <= 1640901265)%Z
   /\ ((1640901265 + SEC_TO_UNIX_EPOCH) * WINDOWS_TICK < 2 ^ 63)%Z)
  /\ filetimeToTimeT (setFileTimesWindows_ft 1640901265) = Some 1640901265%Z.
Proof.
  split; [unfold SEC_TO_UNIX_EPOCH, WINDOWS_TICK; lia|].
  exact (proj2 (proj2 (filetime_write_read 1640901265
           ltac:(unfold SEC_TO_UNIX_EPOCH; lia)
           ltac:(unfold SEC_TO_UNIX_EPOCH, WINDOWS_TICK; lia)))).
Defined.

(** [filetimeToTimeT] on a [FILETIME] with 32-bit halves: no operation
    wraps, and the test decides on the whole seconds since 1970. *)
Lemma filetimeToTimeT_halves ft :
  (0 <= dwLowDateTime ft < 2 ^ 32)%Z -> (0 <= dwHighDateTime ft < 2 ^ 32)%Z ->
  filetimeToTimeT ft =
    if (quadPart ft <? SEC_TO_UNIX_EPOCH * WINDOWS_TICK)%Z then None
    else Some (quadPart ft / WINDOWS_TICK - SEC_TO_UNIX_EPOCH)%Z.
Proof.
  intros Hl Hh.
  assert (Hq : (0 <= quadPart ft < 2 ^ 64)%Z) by (unfold quadPart; lia).
  assert (Hs : (0 <= quadPart ft / WINDOWS_TICK < 2 ^ 41)%Z).
  { unfold WINDOWS_TICK. split; [apply Z.div_pos; lia|].
    apply Z.div_lt_upper_bound; lia. }
  unfold filetimeToTimeT, sub64.
  rewrite (wrap64_fits (quadPart ft / WINDOWS_TICK)) by (unfold fits64; lia).
  rewrite wrap64_fits by (unfold fits64, SEC_TO_UNIX_EPOCH; lia).
  destruct (Z.ltb_spec (quadPart ft) (SEC_TO_UNIX_EPOCH * WINDOWS_TICK)) as [Hold|Hnew].
  - assert (quadPart ft / WINDOWS_TICK < SEC_TO_UNIX_EPOCH)%Z
      by (apply Z.div_lt_upper_bound; unfold WINDOWS_TICK in *; lia).
    destruct (Z.ltb_spec (quadPart ft / WINDOWS_TICK - SEC_TO_UNIX_EPOCH) 0); [done|lia].
  - assert (SEC_TO_UNIX_EPOCH <= quadPart ft / WINDOWS_TICK)%Z
      by (apply Z.div_le_lower_bound; unfold WINDOWS_TICK in *; lia).
    destruct (Z.ltb_spec (quadPart ft / WINDOWS_TICK - SEC_TO_UNIX_EPOCH) 0); [lia|done].
Qed.

(** X13. What [filetimeToTimeT] returns.  For a [FILETIME] with 32-bit
    halves: a file time before 1970 gives "no time"; a file time at or
    after 1970 gives the whole seconds since 1970, the ticks below a
    second dropped, a value that is never negative; and, when the tick
    count is below 2^63, writing that value back gives the same tick
    count rounded down to a second. *)
Theorem filetime_read_floor ft :
  (0 <= dwLowDateTime ft < 2 ^ 32)%Z -> (0 <= dwHighDateTime ft < 2 ^ 32)%Z ->
  ((quadPart ft < SEC_TO_UNIX_EPOCH * WINDOWS_TICK)%Z -> filetimeToTimeT ft = None)
  /\ ((SEC_TO_UNIX_EPOCH * WINDOWS_TICK <= quadPart ft)%Z ->
      filetimeToTimeT ft = Some (quadPart ft / WINDOWS_TICK - SEC_TO_UNIX_EPOCH)%Z
      /\ (0 <= quadPart ft / WINDOWS_TICK - SEC_TO_UNIX_EPOCH)%Z
      /\ (quadPart ft < 2 ^ 63 ->
          quadPart (setFileTimesWindows_ft (quadPart ft / WINDOWS_TICK - SEC_TO_UNIX_EPOCH))
          = quadPart ft - quadPart ft mod WINDOWS_TICK)%Z)
  /\ (forall u, filetimeToTimeT ft = Some u ->
        (0 <= u)%Z
        /\ u = (quadPart ft / WINDOWS_TICK - SEC_TO_UNIX_EPOCH)%Z
        /\ (quadPart ft < 2 ^ 63 ->
            quadPart (setFileTimesWindows_ft u)
            = quadPart ft - quadPart ft mod WINDOWS_TICK)%Z).
Proof.
  intros Hl Hh.
  rewrite (filetimeToTimeT_halves ft Hl Hh).
  assert (Hback : (SEC_TO_UNIX_EPOCH * WINDOWS_TICK <= quadPart ft)%Z ->
    (0 <= quadPart ft / WINDOWS_TICK - SEC_TO_UNIX_EPOCH)%Z
    /\ (quadPart ft < 2 ^ 63 ->
        quadPart (setFileTimesWindows_ft (quadPart ft / WINDOWS_TICK - SEC_TO_UNIX_EPOCH))
        = quadPart ft - quadPart ft mod WINDOWS_TICK)%Z).
  { intros Hnew.
    assert (SEC_TO_UNIX_EPOCH <= quadPart ft / WINDOWS_TICK)%Z
      by (apply Z.div_le_lower_bound; unfold WINDOWS_TICK in *; lia).
    split; [lia|]. intros Hsmall.
    pose proof (Z.div_mod (quadPart ft) WINDOWS_TICK ltac:(unfold WINDOWS_TICK; lia)) as Hdm.
    pose proof (Z.mod_pos_bound (quadPart ft) WINDOWS_TICK ltac:(unfold WINDOWS_TICK; lia)).
    rewrite setFileTimesWindows_ft_quad; unfold WINDOWS_TICK, SEC_TO_UNIX_EPOCH in *; lia. }
  destruct (Z.ltb_spec (quadPart ft) (SEC_TO_UNIX_EPOCH * WINDOWS_TICK)) as [Hold|Hnew].
  - split; [done|]. split; [lia|]. by intros u.
  - split; [lia|]. split.
    + intros _. split; [done|]. by apply Hback.
    + intros u [= <-]. destruct (Hback Hnew) as [H0 Hw]. done.
Qed.

Lemma filetime_read_floor_example :
  ((0 <= 3577643008 < 2 ^ 32)%Z /\ (0 <= 27111902 < 2 ^ 32)%Z
   /\ (SEC_TO_UNIX_EPOCH * WINDOWS_TICK
       <= quadPart {| dwLowDateTime := 3577643008; dwHighDateTime := 27111902 |})%Z)
  /\ filetimeToTimeT {| dwLowDateTime := 3577643008; dwHighDateTime := 27111902 |}
    = Some 0%Z.
Proof.
  split; [vm_compute; repeat split; discriminate|].
  exact (proj1 (proj1 (proj2 (filetime_read_floor
           {| dwLowDateTime := 3577643008; dwHighDateTime := 27111902 |}
           ltac:(simpl; lia) ltac:(simpl; lia)))
           ltac:(vm_compute; discriminate))).
Defined.

(** X14. A Windows scan gives an item both the creation and the write
    time or neither.  When the file times cannot be read, or one of the
    two lies before 1970, both stay unset; when both lie at or after
    1970 the item carries both, each in whole seconds since 1970.  When
    they are unset the file-name override compares the modification
    time only, as on a build without [_WIN32]. *)
Theorem windows_times_both_or_neither p mt times :
  let it := collectItemWindows p mt times in
  (ctime it = None <-> wtime it = None)
  /\ (forall c w, ctime it = Some c -> wtime it = Some w -> (0 <= c)%Z /\ (0 <= w)%Z)
  /\ (times = None -> it = collected p mt None None)
  /\ (forall c w,
        times = Some (c, w) ->
        (0 <= dwLowDateTime c < 2 ^ 32)%Z -> (0 <= dwHighDateTime c < 2 ^ 32)%Z ->
        (0 <= dwLowDateTime w < 2 ^ 32)%Z -> (0 <= dwHighDateTime w < 2 ^ 32)%Z ->
        ((quadPart c < SEC_TO_UNIX_EPOCH * WINDOWS_TICK
          \/ quadPart w < SEC_TO_UNIX_EPOCH * WINDOWS_TICK)%Z ->
         it = collected p mt None None)
        /\ ((SEC_TO_UNIX_EPOCH * WINDOWS_TICK <= quadPart c)%Z ->
            (SEC_TO_UNIX_EPOCH * WINDOWS_TICK <= quadPart w)%Z ->
            it = collected p mt
                   (Some (quadPart c / WINDOWS_TICK - SEC_TO_UNIX_EPOCH)%Z)
                   (Some (quadPart w / WINDOWS_TICK - SEC_TO_UNIX_EPOCH)%Z)))
  /\ (forall parse opt F,
        ctime it = None ->
        enableFilenameOverrideForTarget opt = true ->
        parse p = Some F ->
        applyFilenameOverrideForTarget true parse opt it
        = applyFilenameOverrideForTarget false parse opt it).
Proof.
  intros it.
  assert (Hread : forall c w,
    times = Some (c, w) ->
    (0 <= dwLowDateTime c < 2 ^ 32)%Z -> (0 <= dwHighDateTime c < 2 ^ 32)%Z ->
    (0 <= dwLowDateTime w < 2 ^ 32)%Z -> (0 <= dwHighDateTime w < 2 ^ 32)%Z ->
    ((quadPart c < SEC_TO_UNIX_EPOCH * WINDOWS_TICK
      \/ quadPart w < SEC_TO_UNIX_EPOCH * WINDOWS_TICK)%Z ->
     it = collected p mt None None)
    /\ ((SEC_TO_UNIX_EPOCH * WINDOWS_TICK <= quadPart c)%Z ->
        (SEC_TO_UNIX_EPOCH * WINDOWS_TICK <= quadPart w)%Z ->
        it = collected p mt
               (Some (quadPart c / WINDOWS_TICK - SEC_TO_UNIX_EPOCH)%Z)
               (Some (quadPart w / WINDOWS_TICK - SEC_TO_UNIX_EPOCH)%Z))).
  { intros c w -> Hcl Hch Hwl Hwh.
    unfold it, collectItemWindows, getFileTimesWindows.
    rewrite (filetimeToTimeT_halves c Hcl Hch), (filetimeToTimeT_halves w Hwl Hwh).
    destruct (Z.ltb_spec (quadPart c) (SEC_TO_UNIX_EPOCH * WINDOWS_TICK));
      destruct (Z.ltb_spec (quadPart w) (SEC_TO_UNIX_EPOCH * WINDOWS_TICK));
      split; try done; lia. }
  split; [|split; [|split; [|split; [exact Hread|]]]].
  4: {
    intros parse opt F Hc Hen HF. revert Hc.
    unfold it, collectItemWindows.
    destruct (getFileTimesWindows times); [done|]. intros _.
    unfold applyFilenameOverrideForTarget. simpl. by rewrite Hen, HF. }
  3: { intros ->. done. }
  - unfold it, collectItemWindows. by destruct (getFileTimesWindows times).
  - unfold it, collectItemWindows, getFileTimesWindows.
    destruct times as [[c w]|]; [|done]. unfold filetimeToTimeT.
    destruct (_ <? 0)%Z eqn:Ec; [done|].
    destruct (sub64 (wrap64 (quadPart w / WINDOWS_TICK)) SEC_TO_UNIX_EPOCH <? 0)%Z
      eqn:Ew; [done|].
    simpl. intros c' w' [= <-] [= <-]. apply Z.ltb_ge in Ec, Ew. done.
Qed.

Lemma windows_times_example :
  (oldCreationTimes
   = Some ({| dwLowDateTime := 0; dwHighDateTime := 0 |},
           {| dwLowDateTime := 3577643008; dwHighDateTime := 27111902 |})
   /\ (quadPart {| dwLowDateTime := 0; dwHighDateTime := 0 |}
       < SEC_TO_UNIX_EPOCH * WINDOWS_TICK)%Z)
  /\ collectItemWindows "IMG_b.jpg" 3000000 oldCreationTimes
     = collected "IMG_b.jpg" 3000000 None None
  /\ applyFilenameOverrideForTarget true scanFilenameTime defaultOptions
       (collectItemWindows "IMG_b.jpg" 3000000 oldCreationTimes)
     = applyFilenameOverrideForTarget false scanFilenameTime defaultOptions
         (collectItemWindows "IMG_b.jpg" 3000000 oldCreationTimes).
Proof.
  pose proof (windows_times_both_or_neither "IMG_b.jpg" 3000000 oldCreationTimes) as H.
  split; [split; [reflexivity|vm_compute; reflexivity]|]. split.
  - apply (proj1 (proj2 (proj2 (proj2 H)))
             {| dwLowDateTime := 0; dwHighDateTime := 0 |}
             {| dwLowDateTime := 3577643008; dwHighDateTime := 27111902 |}
             eq_refl); try (simpl; lia).
    left. vm_compute. reflexivity.
  - exact (proj2 (proj2 (proj2 (proj2 H)))
             scanFilenameTime defaultOptions 2000000%Z eq_refl eq_refl eq_refl).
Defined.

(** * Text helpers and the prompts *)

Local Open Scope list_scope.

Lemma eraseFrontSpaces_split s :
  exists pre, s = pre ++ eraseFrontSpaces s /\ Forall (fun c => isspace c = true) pre.
Proof.
  induction s as [|c s (pre & Hs & Hpre)]; [by exists []|].
  simpl. destruct (isspace c) eqn:Hc.
  - exists (c :: pre). split; [by rewrite Hs at 1|by constructor].
  - by exists [].
Qed.

Lemma eraseFrontSpaces_head s c :
  head (eraseFrontSpaces s) = Some c -> isspace c = false.
Proof.
  induction s as [|x s IH]; [done|]. simpl.
  destruct (isspace x) eqn:Hx; [done|]. by intros [= <-].
Qed.

Lemma eraseFrontSpaces_id s :
  (forall c, head s = Some c -> isspace c = false) -> eraseFrontSpaces s = s.
Proof. destruct s as [|c s]; [done|]. simpl. intros H. by rewrite (H c eq_refl). Qed.

Lemma last_snoc_ascii (s : list ascii) c : last (s ++ [c]) = Some c.
Proof. apply last_snoc. Qed.

(** Popping with enough fuel removes exactly the spaces at the end. *)
Lemma popBackSpaces_app fuel body sp :
  Forall (fun c => isspace c = true) sp ->
  (forall c, last body = Some c -> isspace c = false) ->
  length sp + (if body is [] then 0 else 1) <= fuel ->
  popBackSpaces fuel (body ++ sp) = body.
Proof.
  revert fuel. induction sp as [|c sp IH] using rev_ind; intros fuel Hsp Hbody Hfuel.
  - rewrite app_nil_r. destruct fuel as [|fuel].
    + destruct body; [done|simpl in Hfuel; lia].
    + simpl. destruct (last body) as [c|] eqn:Hl; [|done].
      by rewrite (Hbody c eq_refl).
  - apply Forall_app in Hsp as [Hsp Hc]. inversion_clear Hc as [|? ? Hc' _].
    rewrite length_app in Hfuel. simpl in Hfuel.
    destruct fuel as [|fuel]; [lia|].
    simpl. rewrite app_assoc, last_snoc, Hc', removelast_last.
    apply IH; [done|done|lia].
Qed.

Lemma trailing_spaces_split (s : list ascii) :
  exists body sp, s = body ++ sp /\ Forall (fun c => isspace c = true) sp /\
    (forall c, last body = Some c -> isspace c = false).
Proof.
  induction s as [|c s (body & sp & Hs & Hsp & Hbody)] using rev_ind.
  - by exists [], [].
  - destruct (isspace c) eqn:Hc.
    + destruct sp as [|x sp'] eqn:Esp.
      * rewrite app_nil_r in Hs. subst body.
        destruct (decide (s = [])) as [->|Hne].
        -- exists [], [c]. split; [done|]. split; [by repeat constructor|done].
        -- exists s, [c]. split; [done|]. split; [by repeat constructor|done].
      * exists body, (sp ++ [c]). subst sp.
        split; [by rewrite Hs, <-app_assoc|].
        split; [|done]. apply Forall_app. split; [done|by repeat constructor].
    + exists (s ++ [c]), []. split; [by rewrite app_nil_r|]. split; [constructor|].
      intros c'. rewrite last_snoc. by intros [= <-].
Qed.

Lemma trim_id s :
  (forall c, head s = Some c -> isspace c = false) ->
  (forall c, last s = Some c -> isspace c = false) ->
  trim s = s.
Proof.
  intros Hh Hl. unfold trim. rewrite (eraseFrontSpaces_id s Hh).
  rewrite <-(app_nil_r s) at 2.
  rewrite (popBackSpaces_app (length s) s []); [done|constructor|done|].
  destruct s; simpl; lia.
Qed.

Lemma trim_split s :
  exists pre post,
    s = pre ++ trim s ++ post
    /\ Forall (fun c => isspace c = true) pre
    /\ Forall (fun c => isspace c = true) post
    /\ (forall c, head (trim s) = Some c -> isspace c = false)
    /\ (forall c, last (trim s) = Some c -> isspace c = false).
Proof.
  destruct (eraseFrontSpaces_split s) as (pre & Hs & Hpre).
  destruct (trailing_spaces_split (eraseFrontSpaces s)) as (body & sp & Hb & Hsp & Hlast).
  assert (Ht : trim s = body).
  { unfold trim. rewrite Hb. apply popBackSpaces_app; [done|done|].
    rewrite length_app. destruct body; simpl; lia. }
  exists pre, sp. rewrite Ht. split; [by rewrite <-Hb|].
  split; [done|]. split; [done|]. split; [|done].
  intros c Hc. apply (eraseFrontSpaces_head s). rewrite Hb.
  destruct body; [done|]. done.
Qed.

(** X15. [trim] removes exactly the white space around a text: the text
    is some white space, the result, some white space; the result
    neither starts nor ends with white space; a text that neither starts
    nor ends with white space is returned as it is; and trimming twice
    is trimming once. *)
Theorem trim_strips_surrounding_space s :
  (exists pre post,
     s = pre ++ trim s ++ post
     /\ Forall (fun c => isspace c = true) pre
     /\ Forall (fun c => isspace c = true) post
     /\ (forall c, head (trim s) = Some c -> isspace c = false)
     /\ (forall c, last (trim s) = Some c -> isspace c = false))
  /\ ((forall c, head s = Some c -> isspace c = false) ->
      (forall c, last s = Some c -> isspace c = false) -> trim s = s)
  /\ trim (trim s) = trim s.
Proof.
  split; [apply trim_split|]. split; [apply trim_id|].
  destruct (trim_split s) as (_ & _ & _ & _ & _ & Hh & Hl).
  by apply trim_id.
Qed.

Lemma trim_example :
  trim (list_ascii_of_string "a b") = list_ascii_of_string "a b"
  /\ trim (list_ascii_of_string "  a b  ") = list_ascii_of_string "a b".
Proof.
  split; [|reflexivity].
  apply (proj1 (proj2 (trim_strips_surrounding_space (list_ascii_of_string "a b")))).
  - simpl. by intros c [= <-].
  - simpl. by intros c [= <-].
Defined.

Lemma eraseFrontSpaces_app pre c rest :
  Forall (fun c => isspace c = true) pre -> isspace c = false ->
  eraseFrontSpaces (pre ++ c :: rest) = c :: rest.
Proof.
  intros Hpre Hc. induction Hpre as [|x pre Hx _ IH]; simpl; [by rewrite Hc|].
  by rewrite Hx.
Qed.

Lemma popBackSpaces_head fuel c rest :
  isspace c = false -> exists rest', popBackSpaces fuel (c :: rest) = c :: rest'.
Proof.
  intros Hc. revert rest. induction fuel as [|fuel IH]; intros rest; [by eexists|].
  destruct rest as [|x rest _] using rev_ind.
  - cbn. rewrite Hc. by eexists.
  - cbn [popBackSpaces]. rewrite app_comm_cons, last_snoc.
    destruct (isspace x); [|by eexists].
    rewrite removelast_last. apply IH.
Qed.

Lemma yes_letters c :
  (let l := tolower c in
   Ascii.eqb l "y"%char || Ascii.eqb l "1"%char || Ascii.eqb l "t"%char)
  = bool_decide (c ∈ ["y"%char; "Y"%char; "1"%char; "t"%char; "T"%char]).
Proof.
  destruct c as [[] [] [] [] [] [] [] []]; vm_compute; reflexivity.
Qed.

(** X16. The yes/no prompt.  A blank answer gives the default; any other
    answer is decided by its first character that is not white space:
    yes for [y], [Y], [1], [t] and [T], no for everything else, whatever
    the default is. *)
Theorem askYesNo_decision def :
  (forall line, Forall (fun c => isspace c = true) line -> askYesNo line def = def)
  /\ (forall pre c rest,
        Forall (fun c => isspace c = true) pre -> isspace c = false ->
        askYesNo (pre ++ c :: rest) def
        = bool_decide (c ∈ ["y"%char; "Y"%char; "1"%char; "t"%char; "T"%char])).
Proof.
  split.
  - intros line Hline. unfold askYesNo.
    destruct (trim_split line) as (pre & post & Hs & _ & _ & Hh & _).
    destruct (trim line) as [|c t]; [done|].
    pose proof (Hh c eq_refl) as Hc.
    rewrite Hs in Hline. apply Forall_app in Hline as [_ Hline].
    inversion_clear Hline as [|? ? Hc' _]. congruence.
  - intros pre c rest Hpre Hc. unfold askYesNo, trim.
    rewrite (eraseFrontSpaces_app pre c rest Hpre Hc).
    destruct (popBackSpaces_head (length (c :: rest)) c rest Hc) as [rest' ->].
    apply yes_letters.
Qed.

Lemma askYesNo_example :
  askYesNo (list_ascii_of_string "   ") true = true
  /\ askYesNo (list_ascii_of_string "  nope") true = false
  /\ askYesNo (list_ascii_of_string " Yes ") false = true.
Proof.
  split; [|split].
  - apply (proj1 (askYesNo_decision true)).
    repeat (apply List.Forall_cons; [reflexivity|]). apply List.Forall_nil.
  - apply (proj2 (askYesNo_decision true) (list_ascii_of_string "  ") "n"%char
             (list_ascii_of_string "ope")); [|reflexivity].
    repeat (apply List.Forall_cons; [reflexivity|]). apply List.Forall_nil.
  - apply (proj2 (askYesNo_decision false) (list_ascii_of_string " ") "Y"%char
             (list_ascii_of_string "es ")); [|reflexivity].
    repeat (apply List.Forall_cons; [reflexivity|]). apply List.Forall_nil.
Defined.

(** X17. A quoted path is taken verbatim.  A line made of white space, a
    quote, any text, the same quote (double or single) and white space
    gives exactly the text between the quotes; a line whose trimmed text
    does not start with a quote gives the trimmed text. *)
Theorem askPath_unquotes :
  (forall pre post p q,
     q = dquote \/ q = squote ->
     Forall (fun c => isspace c = true) pre ->
     Forall (fun c => isspace c = true) post ->
     askPath (pre ++ q :: p ++ [q] ++ post) = p)
  /\ (forall line f,
        head (trim line) = Some f -> f ≠ dquote -> f ≠ squote ->
        askPath line = trim line).
Proof.
  split.
  - intros pre post p q Hq Hpre Hpost.
    assert (Hqs : isspace q = false) by (by destruct Hq as [-> | ->]).
    assert (Ht : trim (pre ++ q :: p ++ [q] ++ post) = q :: p ++ [q]).
    { unfold trim. rewrite (eraseFrontSpaces_app pre q _ Hpre Hqs).
      replace (q :: p ++ [q] ++ post) with ((q :: p ++ [q]) ++ post)
        by (by rewrite <-app_comm_cons, <-app_assoc).
      apply popBackSpaces_app; [done| |].
      - intros c. rewrite app_comm_cons, last_snoc. by intros [= <-].
      - rewrite length_app. simpl. lia. }
    unfold askPath. rewrite Ht.
    rewrite app_comm_cons, last_snoc, <-app_comm_cons.
    change (head (q :: p ++ [q])) with (Some q).
    assert (Hlen : (2 <=? length (q :: p ++ [q]))%nat = true).
    { apply Nat.leb_le. simpl. rewrite length_app. simpl. lia. }
    rewrite Hlen.
    assert (Heq : (Ascii.eqb q dquote && Ascii.eqb q dquote)
                  || (Ascii.eqb q squote && Ascii.eqb q squote) = true)
      by (by destruct Hq as [-> | ->]).
    rewrite Heq. simpl. rewrite length_app. simpl.
    replace (length p + 1 - 1) with (length p) by lia.
    rewrite drop_0. by rewrite take_app_length.
  - intros line f Hf Hd Hs. unfold askPath. rewrite Hf.
    destruct (last (trim line)) as [b|]; [|done].
    apply Ascii.eqb_neq in Hd, Hs. rewrite Hd, Hs. simpl.
    by rewrite andb_false_r.
Qed.

Lemma askPath_example :
  askPath (list_ascii_of_string " 'C:\My Photos\2021 '  ")
  = list_ascii_of_string "C:\My Photos\2021 ".
Proof.
  apply (proj1 askPath_unquotes (list_ascii_of_string " ")
           (list_ascii_of_string "  ")
           (list_ascii_of_string "C:\My Photos\2021 ") squote).
  - by right.
  - repeat (apply List.Forall_cons; [reflexivity|]). apply List.Forall_nil.
  - repeat (apply List.Forall_cons; [reflexivity|]). apply List.Forall_nil.
Defined.

(** * The shot time in the metadata *)

Lemma setIfMissing_lookup k s st k' :
  (setIfMissing k s st).1 !! k' =
  if decide (k' = k) then Some (default s (st.1 !! k)) else st.1 !! k'.
Proof.
  unfold setIfMissing. destruct (st.1 !! k) as [v|] eqn:Hk; simpl.
  - case_decide; [by subst|done].
  - case_decide; [subst; by rewrite lookup_insert_eq|by rewrite lookup_insert_ne].
Qed.

Lemma setIfMissing_changed k s st :
  (setIfMissing k s st).2 = st.2 || bool_decide (st.1 !! k = None).
Proof.
  unfold setIfMissing. destruct (st.1 !! k); simpl.
  - by rewrite orb_false_r.
  - by rewrite orb_true_r.
Qed.

Ltac in_keys := rewrite ?elem_of_cons; tauto.

Lemma writeExif_lookup exif s k :
  (writeExifShotIfMissing exif s).1 !! k =
  if bool_decide (k ∈ [keyDateTimeOriginal; keyDateTimeDigitized; keyImageDateTime])
  then Some (default s (exif !! k)) else exif !! k.
Proof.
  unfold writeExifShotIfMissing.
  rewrite !setIfMissing_lookup. simpl.
  rewrite ?setIfMissing_lookup. simpl.
  repeat case_decide; subst; try done; case_bool_decide as Hin; try done;
    exfalso; revert Hin; rewrite ?elem_of_cons, ?elem_of_nil; tauto.
Qed.

Lemma writeExif_changed exif s :
  (writeExifShotIfMissing exif s).2 =
  bool_decide (exif !! keyDateTimeOriginal = None)
  || bool_decide (exif !! keyDateTimeDigitized = None)
  || bool_decide (exif !! keyImageDateTime = None).
Proof.
  unfold writeExifShotIfMissing, setIfMissing. simpl.
  destruct (exif !! keyDateTimeOriginal) eqn:H1; simpl;
    rewrite ?lookup_insert_ne by done;
    destruct (exif !! keyDateTimeDigitized) eqn:H2; simpl;
    rewrite ?lookup_insert_ne by done;
    destruct (exif !! keyImageDateTime) eqn:H3; simpl;
    repeat case_bool_decide; done.
Qed.

(** X18. Writing the shot time touches only what is missing.  No datum
    the file already has is changed or removed; afterwards the three
    date keys are present, each with its old value if it had one and the
    new time otherwise; the function reports a change exactly when one
    of the three was missing, and leaves the data as they are when it
    reports none; and a second call with any time changes nothing. *)
Theorem writeExif_only_fills_missing exif s :
  let after := (writeExifShotIfMissing exif s).1 in
  let changed := (writeExifShotIfMissing exif s).2 in
  (forall k v, exif !! k = Some v -> after !! k = Some v)
  /\ (forall k, k ∈ [keyDateTimeOriginal; keyDateTimeDigitized; keyImageDateTime] ->
        after !! k = Some (default s (exif !! k)))
  /\ (forall k, k ∉ [keyDateTimeOriginal; keyDateTimeDigitized; keyImageDateTime] ->
        after !! k = exif !! k)
  /\ (changed = false <->
      is_Some (exif !! keyDateTimeOriginal) /\ is_Some (exif !! keyDateTimeDigitized)
      /\ is_Some (exif !! keyImageDateTime))
  /\ (changed = false -> after = exif)
  /\ (forall s', writeExifShotIfMissing after s' = (after, false)).
Proof.
  intros after changed.
  assert (Hkeep : forall k v, exif !! k = Some v -> after !! k = Some v).
  { intros k v Hk. unfold after. rewrite writeExif_lookup, Hk.
    by case_bool_decide. }
  assert (Hthree : forall k,
            k ∈ [keyDateTimeOriginal; keyDateTimeDigitized; keyImageDateTime] ->
            after !! k = Some (default s (exif !! k))).
  { intros k Hk. unfold after. rewrite writeExif_lookup.
    by rewrite bool_decide_eq_true_2. }
  assert (Hch : changed = false <->
            is_Some (exif !! keyDateTimeOriginal) /\
            is_Some (exif !! keyDateTimeDigitized) /\
            is_Some (exif !! keyImageDateTime)).
  { unfold changed. rewrite writeExif_changed.
    rewrite !orb_false_iff, !bool_decide_eq_false, <-!not_eq_None_Some. tauto. }
  split; [done|]. split; [done|]. split.
  { intros k Hk. unfold after. rewrite writeExif_lookup.
    by rewrite bool_decide_eq_false_2. }
  split; [done|]. split.
  - intros Hc. apply Hch in Hc as ([v1 H1] & [v2 H2] & [v3 H3]).
    apply map_eq. intros k. unfold after. rewrite writeExif_lookup.
    case_bool_decide as Hin; [|done].
    apply elem_of_cons in Hin as [->|Hin]; [by rewrite H1|].
    apply elem_of_cons in Hin as [->|Hin]; [by rewrite H2|].
    apply list_elem_of_singleton in Hin as ->. by rewrite H3.
  - intros s'.
    assert (Hc' : (writeExifShotIfMissing after s').2 = false).
    { rewrite writeExif_changed.
      rewrite !(Hthree _) by in_keys. done. }
    assert (Ha' : (writeExifShotIfMissing after s').1 = after).
    { apply map_eq. intros k. rewrite writeExif_lookup.
      case_bool_decide as Hin; [|done].
      by rewrite (Hthree k Hin). }
    destruct (writeExifShotIfMissing after s') as [a c]. simpl in *. by subst.
Qed.

Lemma tryKeys_single timeOf data k :
  tryKeys timeOf data [k] = data !! k ≫= timeOf.
Proof. simpl. destruct (data !! k) as [v|]; simpl; [|done]. by destruct (timeOf v). Qed.

(** X19. What was written is read back on the next run.  If the reader
    found no usable shot time in a file, the writer then reported a
    change, and the written string parses to the time [t], the reader
    finds [t] in the file afterwards: the file has become an anchor. *)
Theorem exif_write_then_read timeOf exif xmp s t :
  readShotTimeFromMetadata timeOf exif xmp = None ->
  (writeExifShotIfMissing exif s).2 = true ->
  timeOf s = Some t ->
  readShotTimeFromMetadata timeOf (writeExifShotIfMissing exif s).1 xmp = Some t.
Proof.
  intros Hread Hch Hs.
  set (after := (writeExifShotIfMissing exif s).1).
  assert (Hbad : forall k,
            k ∈ [keyDateTimeOriginal; keyDateTimeDigitized; keyImageDateTime] ->
            exif !! k ≫= timeOf = None).
  { intros k Hk. destruct (decide (exif = ∅)) as [->|Hne]; [by rewrite lookup_empty|].
    unfold readShotTimeFromMetadata in Hread.
    destruct (decide (exif = ∅)); [done|].
    rewrite !tryKeys_single in Hread.
    apply elem_of_cons in Hk as [->|Hk];
      [by destruct (exif !! keyDateTimeOriginal ≫= timeOf)|].
    destruct (exif !! keyDateTimeOriginal ≫= timeOf); [done|]. simpl in Hread.
    apply elem_of_cons in Hk as [->|Hk];
      [by destruct (exif !! keyDateTimeDigitized ≫= timeOf)|].
    destruct (exif !! keyDateTimeDigitized ≫= timeOf); [done|]. simpl in Hread.
    apply list_elem_of_singleton in Hk as ->.
    by destruct (exif !! keyImageDateTime ≫= timeOf). }
  assert (Hafter : forall k,
            k ∈ [keyDateTimeOriginal; keyDateTimeDigitized; keyImageDateTime] ->
            after !! k ≫= timeOf = if exif !! k is Some _ then None else Some t).
  { intros k Hk. unfold after. rewrite writeExif_lookup, bool_decide_eq_true_2 by done.
    specialize (Hbad k Hk). destruct (exif !! k) as [v|]; simpl in *; [done|].
    by rewrite Hs. }
  rewrite writeExif_changed in Hch.
  assert (Hne : after ≠ ∅).
  { intros He. assert (H1 : after !! keyDateTimeOriginal = None) by (by rewrite He).
    unfold after in H1. rewrite writeExif_lookup, bool_decide_eq_true_2 in H1; [done|].
    in_keys. }
  unfold readShotTimeFromMetadata.
  destruct (decide (after = ∅)); [done|].
  rewrite !tryKeys_single, !Hafter by in_keys.
  destruct (exif !! keyDateTimeOriginal); [|done].
  destruct (exif !! keyDateTimeDigitized); [|done].
  destruct (exif !! keyImageDateTime); [|done].
  done.
Qed.

Lemma exif_write_then_read_example :
  (readShotTimeFromMetadata knownDate staleExif ∅ = None
   /\ (writeExifShotIfMissing staleExif "2021:12:30 21:54:25").2 = true
   /\ (writeExifShotIfMissing staleExif "2021:12:30 21:54:25").1 !! keyImageDateTime
      = Some "0000:00:00 00:00:00")
  /\ readShotTimeFromMetadata knownDate
       (writeExifShotIfMissing staleExif "2021:12:30 21:54:25").1 ∅
     = Some 1640901265%Z.
Proof.
  assert (H1 : readShotTimeFromMetadata knownDate staleExif ∅ = None)
    by (vm_compute; reflexivity).
  assert (H2 : (writeExifShotIfMissing staleExif "2021:12:30 21:54:25").2 = true)
    by (vm_compute; reflexivity).
  split; [split; [exact H1|split; [exact H2|]]|].
  - vm_compute; reflexivity.
  - exact (exif_write_then_read knownDate staleExif ∅ "2021:12:30 21:54:25"
             1640901265%Z H1 H2 eq_refl).
Defined.

Lemma writeExif_example :
  (writeExifShotIfMissing staleExif "2021:12:30 21:54:25").1 !! keyDateTimeOriginal
  = Some "2021:12:30 21:54:25".
Proof.
  rewrite (proj1 (proj2 (writeExif_only_fills_missing staleExif "2021:12:30 21:54:25"))
             keyDateTimeOriginal) by (rewrite ?elem_of_cons; tauto).
  vm_compute; reflexivity.
Defined.

(** * The time in a file name *)

Lemma digit_not_separator c :
  isdigit c = true ->
  isUnderscoreOrDash c = false /\ isUnderscoreSpaceOrDash c = false
  /\ Ascii.eqb c "-"%char = false.
Proof.
  destruct c as [[] [] [] [] [] [] [] []]; vm_compute; try discriminate; done.
Qed.

Lemma takeDigits_app ds rest :
  Forall (fun c => isdigit c = true) ds ->
  takeDigits (length ds) (ds ++ rest) = Some (ds, rest).
Proof.
  induction 1 as [|c ds Hc _ IH]; [done|].
  simpl. by rewrite Hc, IH.
Qed.

Lemma takeDigits_group n ds rest :
  length ds = n -> Forall (fun c => isdigit c = true) ds ->
  takeDigits n (ds ++ rest) = Some (ds, rest).
Proof. intros <-. apply takeDigits_app. Qed.

Lemma skipOptional_before_digits cls sep ds rest :
  (forall c, isdigit c = true -> cls c = false) ->
  sep = [] \/ (exists c, sep = [c] /\ cls c = true) ->
  Forall (fun c => isdigit c = true) ds -> 0 < length ds ->
  skipOptional cls (sep ++ ds ++ rest) = ds ++ rest.
Proof.
  intros Hcls [->|(c & -> & Hc)] Hds Hlen.
  - destruct Hds as [|d ds Hd _]; [simpl in Hlen; lia|].
    simpl. by rewrite (Hcls d Hd).
  - simpl. by rewrite Hc.
Qed.

Lemma regexSearch_here matchAt s g :
  matchAt s = Some g -> regexSearch matchAt s = Some g.
Proof. intros H. destruct s; simpl; by rewrite H. Qed.

Lemma regexSearch_skip matchAt pre s :
  (forall c r, isdigit c = false -> matchAt (c :: r) = None) ->
  Forall (fun c => isdigit c = false) pre ->
  regexSearch matchAt (pre ++ s) = regexSearch matchAt s.
Proof.
  intros Hm. induction 1 as [|c pre Hc _ IH]; [done|].
  simpl. by rewrite (Hm c _ Hc).
Qed.

Lemma matchCompact_nondigit c r : isdigit c = false -> matchCompact (c :: r) = None.
Proof. intros Hc. unfold matchCompact. simpl. by rewrite Hc. Qed.

Lemma matchDashed_nondigit c r : isdigit c = false -> matchDashed (c :: r) = None.
Proof. intros Hc. unfold matchDashed. simpl. by rewrite Hc. Qed.

Lemma regexSearch_no_digit matchAt s :
  matchAt [] = None ->
  (forall c r, isdigit c = false -> matchAt (c :: r) = None) ->
  Forall (fun c => isdigit c = false) s ->
  regexSearch matchAt s = None.
Proof.
  intros Hnil Hm. induction 1 as [|c s Hc _ IH]; simpl; [by rewrite Hnil|].
  by rewrite (Hm c _ Hc).
Qed.

Section FilenameTimeFacts.

Variable mktime : Tm -> Z.
Variable now : Z.

Lemma tryPattern_found matchAt name g :
  regexSearch matchAt name = Some g ->
  tryPattern mktime now matchAt name =
  if plausible mktime now (mktime (tmOfGroups g)) then Some (mktime (tmOfGroups g))
  else None.
Proof.
  intros Hg. unfold tryPattern, tmToTimeTLocal. rewrite Hg.
  destruct (Z.eqb_spec (mktime (tmOfGroups g)) (-1)) as [Heq|]; [|done].
  unfold plausible. rewrite Heq. done.
Qed.

Lemma tryPattern_some matchAt name t :
  tryPattern mktime now matchAt name = Some t ->
  plausible mktime now t = true /\
  exists g, regexSearch matchAt name = Some g /\ t = mktime (tmOfGroups g).
Proof.
  unfold tryPattern, tmToTimeTLocal.
  destruct (regexSearch matchAt name) as [g|]; [|done].
  destruct (mktime (tmOfGroups g) =? -1)%Z; [done|].
  destruct (plausible mktime now (mktime (tmOfGroups g))) eqn:Hp; [|done].
  intros [= <-]. split; [done|]. by exists g.
Qed.

(** X20. A time taken from a file name is always plausible: whenever
    [parseFilenameTime] returns a time, that time is what [mktime]
    makes of the leftmost match of one of the two patterns, it is not
    the error value [-1], not before 1980 and not more than a day after
    the present. *)
Theorem filename_time_is_plausible name t :
  parseFilenameTime mktime now name = Some t ->
  plausible mktime now t = true
  /\ t ≠ (-1)%Z
  /\ (t <= add64 now 86400)%Z
  /\ exists g,
       (regexSearch matchCompact name = Some g \/ regexSearch matchDashed name = Some g)
       /\ t = mktime (tmOfGroups g).
Proof.
  unfold parseFilenameTime, orTry. intros H.
  assert (Hp : plausible mktime now t = true /\
               exists g, (regexSearch matchCompact name = Some g \/
                          regexSearch matchDashed name = Some g)
                         /\ t = mktime (tmOfGroups g)).
  { destruct (tryPattern mktime now matchCompact name) as [t1|] eqn:H1.
    - injection H as <-. apply tryPattern_some in H1 as (Hp & g & Hg & ->).
      split; [done|]. exists g. by split; [left|].
    - apply tryPattern_some in H as (Hp & g & Hg & ->).
      split; [done|]. exists g. by split; [right|]. }
  destruct Hp as [Hp Hg]. split; [done|].
  unfold plausible in Hp. apply andb_true_iff in Hp as [Hp Hle].
  apply andb_true_iff in Hp as [Hne _].
  apply negb_true_iff, Z.eqb_neq in Hne. apply Z.leb_le in Hle. done.
Qed.

(** X21. A name that carries [YYYYMMDD], an optional [_] or [-], and
    [HHMMSS] after a part without digits is read as that date and time:
    the leftmost match of the first pattern is exactly these six groups,
    and the result is the time [mktime] makes of them when that is
    plausible; only when it is not does the second pattern get its
    turn. *)
Theorem compact_name_is_parsed pre y mo d sep h mi se post :
  Forall (fun c => isdigit c = false) pre ->
  Forall (fun c => isdigit c = true) (y ++ mo ++ d ++ h ++ mi ++ se) ->
  length y = 4 -> length mo = 2 -> length d = 2 ->
  length h = 2 -> length mi = 2 -> length se = 2 ->
  sep = [] \/ sep = ["_"%char] \/ sep = ["-"%char] ->
  let name := pre ++ y ++ mo ++ d ++ sep ++ h ++ mi ++ se ++ post in
  let g := {| gY := y; gM := mo; gD := d; gh := h; gmi := mi; gs := se |} in
  regexSearch matchCompact name = Some g
  /\ parseFilenameTime mktime now name =
     if plausible mktime now (mktime (tmOfGroups g))
     then Some (mktime (tmOfGroups g))
     else tryPattern mktime now matchDashed name.
Proof.
  intros Hpre Hdig Hy Hmo Hd Hh Hmi Hse Hsep name g.
  apply Forall_app in Hdig as [Dy Hdig]. apply Forall_app in Hdig as [Dmo Hdig].
  apply Forall_app in Hdig as [Dd Hdig]. apply Forall_app in Hdig as [Dh Hdig].
  apply Forall_app in Hdig as [Dmi Dse].
  assert (Hg : regexSearch matchCompact name = Some g).
  { unfold name. rewrite (regexSearch_skip _ _ _ matchCompact_nondigit Hpre).
    assert (Hm : matchCompact (y ++ mo ++ d ++ sep ++ h ++ mi ++ se ++ post) = Some g).
    { unfold matchCompact.
      rewrite (takeDigits_group 4 y _ Hy Dy). cbn [mbind option_bind].
      rewrite (takeDigits_group 2 mo _ Hmo Dmo). cbn [mbind option_bind].
      rewrite (takeDigits_group 2 d _ Hd Dd). cbn [mbind option_bind].
      rewrite (skipOptional_before_digits isUnderscoreOrDash sep h);
        [|intros c Hc; by apply digit_not_separator| |done|lia].
      - rewrite (takeDigits_group 2 h _ Hh Dh). cbn [mbind option_bind].
        rewrite (takeDigits_group 2 mi _ Hmi Dmi). cbn [mbind option_bind].
        by rewrite (takeDigits_group 2 se _ Hse Dse).
      - destruct Hsep as [-> | [-> | ->]]; [by left|right; by eexists|right; by eexists]. }
    by apply regexSearch_here. }
  split; [done|].
  unfold parseFilenameTime. rewrite (tryPattern_found _ _ _ Hg).
  by destruct (plausible mktime now (mktime (tmOfGroups g))).
Qed.

(** X22. A name without any digit carries no time. *)
Theorem name_without_digits_has_no_time name :
  Forall (fun c => isdigit c = false) name ->
  parseFilenameTime mktime now name = None.
Proof.
  intros Hname. unfold parseFilenameTime, tryPattern.
  rewrite (regexSearch_no_digit matchCompact name eq_refl matchCompact_nondigit Hname).
  by rewrite (regexSearch_no_digit matchDashed name eq_refl matchDashed_nondigit Hname).
Qed.

(** X23. A name that carries [YYYY-MM-DD], then the hour, the minute and
    the second, each optionally preceded by a separator ([_], [-] and,
    before the hour, also white space), after a part without digits:
    when the first pattern yields no plausible time, the result is the
    time [mktime] makes of these six groups, if that is plausible, and
    nothing otherwise. *)
Theorem dashed_name_is_parsed pre y mo d sep1 h sep2 mi sep3 se post :
  Forall (fun c => isdigit c = false) pre ->
  Forall (fun c => isdigit c = true) (y ++ mo ++ d ++ h ++ mi ++ se) ->
  length y = 4 -> length mo = 2 -> length d = 2 ->
  length h = 2 -> length mi = 2 -> length se = 2 ->
  sep1 = [] \/ (exists c, sep1 = [c] /\ isUnderscoreSpaceOrDash c = true) ->
  sep2 = [] \/ (exists c, sep2 = [c] /\ isUnderscoreOrDash c = true) ->
  sep3 = [] \/ (exists c, sep3 = [c] /\ isUnderscoreOrDash c = true) ->
  let name := pre ++ y ++ ["-"%char] ++ mo ++ ["-"%char] ++ d
              ++ sep1 ++ h ++ sep2 ++ mi ++ sep3 ++ se ++ post in
  let g := {| gY := y; gM := mo; gD := d; gh := h; gmi := mi; gs := se |} in
  tryPattern mktime now matchCompact name = None ->
  regexSearch matchDashed name = Some g
  /\ parseFilenameTime mktime now name =
     if plausible mktime now (mktime (tmOfGroups g))
     then Some (mktime (tmOfGroups g)) else None.
Proof.
  intros Hpre Hdig Hy Hmo Hd Hh Hmi Hse Hs1 Hs2 Hs3 name g Hcompact.
  apply Forall_app in Hdig as [Dy Hdig]. apply Forall_app in Hdig as [Dmo Hdig].
  apply Forall_app in Hdig as [Dd Hdig]. apply Forall_app in Hdig as [Dh Hdig].
  apply Forall_app in Hdig as [Dmi Dse].
  assert (Hg : regexSearch matchDashed name = Some g).
  { unfold name. rewrite (regexSearch_skip _ _ _ matchDashed_nondigit Hpre).
    set (s := y ++ ["-"%char] ++ mo ++ ["-"%char] ++ d
              ++ sep1 ++ h ++ sep2 ++ mi ++ sep3 ++ se ++ post).
    assert (Hm : matchDashed s = Some g).
    { unfold matchDashed, s.
      rewrite (takeDigits_group 4 y _ Hy Dy). cbn [mbind option_bind app expectChar].
      rewrite Ascii.eqb_refl. cbn [mbind option_bind].
      rewrite (takeDigits_group 2 mo _ Hmo Dmo). cbn [mbind option_bind app expectChar].
      rewrite Ascii.eqb_refl. cbn [mbind option_bind].
      rewrite (takeDigits_group 2 d _ Hd Dd). cbn [mbind option_bind].
      rewrite (skipOptional_before_digits isUnderscoreSpaceOrDash sep1 h);
        [|intros c Hc; by apply digit_not_separator|done|done|lia].
      rewrite (takeDigits_group 2 h _ Hh Dh). cbn [mbind option_bind].
      rewrite (skipOptional_before_digits isUnderscoreOrDash sep2 mi);
        [|intros c Hc; by apply digit_not_separator|done|done|lia].
      rewrite (takeDigits_group 2 mi _ Hmi Dmi). cbn [mbind option_bind].
      rewrite (skipOptional_before_digits isUnderscoreOrDash sep3 se);
        [|intros c Hc; by apply digit_not_separator|done|done|lia].
      by rewrite (takeDigits_group 2 se _ Hse Dse). }
    by apply regexSearch_here. }
  split; [done|].
  unfold parseFilenameTime. rewrite Hcompact. simpl.
  apply (tryPattern_found _ _ _ Hg).
Qed.

End FilenameTimeFacts.

Ltac all_chars :=
  repeat (apply List.Forall_cons; [reflexivity|]); apply List.Forall_nil.

Lemma filename_time_is_plausible_example :
  parseFilenameTime toyMktime toyNow (list_ascii_of_string "IMG_20210704_123305")
    = Some 1655555585%Z
  /\ plausible toyMktime toyNow 1655555585 = true.
Proof.
  assert (H : parseFilenameTime toyMktime toyNow
                (list_ascii_of_string "IMG_20210704_123305") = Some 1655555585%Z)
    by (vm_compute; reflexivity).
  split; [exact H|].
  exact (proj1 (filename_time_is_plausible toyMktime toyNow _ _ H)).
Defined.

Lemma compact_name_example :
  parseFilenameTime toyMktime toyNow (list_ascii_of_string "Screenshot_20211230_215425")
  = Some (toyMktime {| tm_sec := 25; tm_min := 54; tm_hour := 21;
                       tm_mday := 30; tm_mon := 11; tm_year := 121;
                       tm_isdst := -1 |}).
Proof.
  pose proof (compact_name_is_parsed toyMktime toyNow
    (list_ascii_of_string "Screenshot_")
    (list_ascii_of_string "2021") (list_ascii_of_string "12")
    (list_ascii_of_string "30") (list_ascii_of_string "_")
    (list_ascii_of_string "21") (list_ascii_of_string "54")
    (list_ascii_of_string "25") []
    ltac:(all_chars) ltac:(all_chars)
    eq_refl eq_refl eq_refl eq_refl eq_refl eq_refl
    ltac:(right; left; reflexivity)) as [_ H].
  exact H.
Defined.

Lemma name_without_digits_example :
  parseFilenameTime toyMktime toyNow (list_ascii_of_string "holiday") = None.
Proof.
  apply name_without_digits_has_no_time. all_chars.
Defined.

Lemma dashed_name_example :
  tryPattern toyMktime toyNow matchCompact
    (list_ascii_of_string "image-2021-01-27-22_47_22-543") = None
  /\ parseFilenameTime toyMktime toyNow
       (list_ascii_of_string "image-2021-01-27-22_47_22-543")
     = Some (toyMktime {| tm_sec := 22; tm_min := 47; tm_hour := 22;
                          tm_mday := 27; tm_mon := 0; tm_year := 121;
                          tm_isdst := -1 |}).
Proof.
  assert (Hc : tryPattern toyMktime toyNow matchCompact
                 (list_ascii_of_string "image-2021-01-27-22_47_22-543") = None)
    by (vm_compute; reflexivity).
  split; [exact Hc|].
  pose proof (dashed_name_is_parsed toyMktime toyNow
    (list_ascii_of_string "image-")
    (list_ascii_of_string "2021") (list_ascii_of_string "01")
    (list_ascii_of_string "27") (list_ascii_of_string "-")
    (list_ascii_of_string "22") (list_ascii_of_string "_")
    (list_ascii_of_string "47") (list_ascii_of_string "_")
    (list_ascii_of_string "22") (list_ascii_of_string "-543")
    ltac:(all_chars) ltac:(all_chars)
    eq_refl eq_refl eq_refl eq_refl eq_refl eq_refl
    ltac:(right; eexists; split; reflexivity)
    ltac:(right; eexists; split; reflexivity)
    ltac:(right; eexists; split; reflexivity)
    Hc) as [_ H].
  exact H.
Defined.

(** * Edge values of the override threshold *)

(** X24. The threshold of the file-name override at its edges.  With a
    negative number of days every item that has a file-name time is
    overridden, however small the drift; with zero days, on a build
    without the Windows times, an item is overridden exactly when its
    modification time differs from the file-name time at all. *)
Theorem override_threshold_edges win32 parse opt it F :
  enableFilenameOverrideForTarget opt = true ->
  parse (path it) = Some F ->
  fits64 (filenameOverrideDays opt * 86400) ->
  fits64 (Z.abs (mtime it - F)) ->
  (forall c, ctime it = Some c -> fits64 (Z.abs (c - F))) ->
  (forall w, wtime it = Some w -> fits64 (Z.abs (w - F))) ->
  ((filenameOverrideDays opt < 0)%Z ->
   target (applyFilenameOverrideForTarget win32 parse opt it) = Some F)
  /\ (filenameOverrideDays opt = 0%Z -> win32 = false -> target it = None ->
      (target (applyFilenameOverrideForTarget win32 parse opt it) = Some F
       <-> mtime it ≠ F)).
Proof.
  intros Hen HF Fthr Fm Fc Fw.
  unfold applyFilenameOverrideForTarget. rewrite Hen, HF. simpl.
  unfold mul64. rewrite (wrap64_fits _ Fthr), (absDiffSec_fits _ _ Fm).
  split.
  - intros Hneg.
    assert (Hm : (filenameOverrideDays opt * 86400 <? Z.abs (mtime it - F))%Z = true)
      by (apply Z.ltb_lt; lia).
    destruct win32; [|by rewrite Hm].
    destruct (ctime it) as [c|] eqn:Hc; [|by rewrite Hm].
    destruct (wtime it) as [w|] eqn:Hw; [|by rewrite Hm].
    rewrite (absDiffSec_fits _ _ (Fc c eq_refl)), (absDiffSec_fits _ _ (Fw w eq_refl)).
    assert (H1 : (filenameOverrideDays opt * 86400 <? Z.abs (c - F))%Z = true)
      by (apply Z.ltb_lt; lia).
    assert (H2 : (filenameOverrideDays opt * 86400 <? Z.abs (w - F))%Z = true)
      by (apply Z.ltb_lt; lia).
    by rewrite H1, H2.
  - intros -> -> Ht. change (0 * 86400)%Z with 0%Z.
    destruct (Z.ltb_spec 0 (Z.abs (mtime it - F))); simpl.
    + split; [lia|done].
    + rewrite Ht. split; [done|lia].
Qed.

Lemma override_threshold_example :
  (filenameOverrideDays negativeDaysOptions < 0)%Z
  /\ target (applyFilenameOverrideForTarget false (fun _ => Some 2000000%Z)
               negativeDaysOptions (collected "IMG_b.jpg" 2000000 None None))
     = Some 2000000%Z.
Proof.
  split; [simpl; lia|].
  apply (proj1 (override_threshold_edges false (fun _ => Some 2000000%Z)
                  negativeDaysOptions
                  (collected "IMG_b.jpg" 2000000 None None) 2000000
                  eq_refl eq_refl
                  ltac:(unfold fits64; simpl; lia) ltac:(unfold fits64; simpl; lia)
                  ltac:(intros c [=]) ltac:(intros w [=]))).
  simpl. lia.
Defined.
